(** * rag-qa-bot: retrieval engine

    A shallow embedding of the backend of the question-answering bot:
    - [pdf_processor.py]: whitespace normalisation, sentence splitting and
      greedy chunking ([SimplePDFProcessor.load_pdf], [process_pdf]);
    - [simple_rag.py]: cosine similarity, ranking ([search]), ingestion
      ([process_document]) and the question-answering state machine
      ([answer_question]);
    - [rag_simple.py]: the earlier variant of the same class, kept in the
      repository next to [simple_rag.py].

    Conventions.
    - A Python [str] is a list of Unicode code points ([N]).
    - A Python [float] is a real number: arithmetic is exact.
    - A Python [int] is in [Z]; list positions and lengths are [nat].
    - The remote provider (the [cohere] client), the file system and the PDF
      reader are external: their answers are read from a [World] that every
      call may change, and every remote call is appended to a trace.
    - [print] is not modelled. *)

From Stdlib Require Import String Ascii DecimalString.
From Stdlib Require Import ZArith NArith Reals Lra Lia Bool Arith.
From Stdlib Require Import List Permutation Sorted.
Import ListNotations.

(* ================================================================= *)
(** ** Python strings *)

Module PyStr.

(** A character is a code point; a string is a sequence of them. *)
Definition char := N.
Definition text := list char.

(** A literal of the source whose characters are all ASCII. *)
Definition str (s : string) : text :=
  map N_of_ascii (list_ascii_of_string s).

Definition SPACE : char := 32%N.
Definition NEWLINE : char := 10%N.
Definition DQUOTE : char := 34%N.

(** [len(s)], of a string or of a list *)
Definition len {A} (s : list A) : Z := Z.of_nat (length s).

(** Truth value of a string or of a list: non-empty. *)
Definition truthy {A} (l : list A) : bool :=
  match l with [] => false | _ :: _ => true end.

(** [str.isspace] on one character, which is also what [\s] matches in a
    [str] pattern and what [str.strip()] removes. *)
Definition is_space (c : char) : bool :=
  ((9 <=? c) && (c <=? 13) || (28 <=? c) && (c <=? 32)
   || (c =? 133) || (c =? 160) || (c =? 5760)
   || (8192 <=? c) && (c <=? 8202)
   || (c =? 8232) || (c =? 8233) || (c =? 8239) || (c =? 8287)
   || (c =? 12288))%N.

(** The character class [[.!?]]. *)
Definition is_terminal (c : char) : bool :=
  ((c =? 46) || (c =? 33) || (c =? 63))%N.

(** [re.sub(r'\s+', ' ', s)]: every maximal run of white space becomes one
    space.  [in_run] tells that the previous character was white space. *)
Fixpoint re_sub_ws_from (in_run : bool) (s : text) : text :=
  match s with
  | [] => []
  | c :: s' =>
      if is_space c
      then if in_run then re_sub_ws_from true s'
           else SPACE :: re_sub_ws_from true s'
      else c :: re_sub_ws_from false s'
  end.

Definition re_sub_ws (s : text) : text := re_sub_ws_from false s.

Fixpoint lstrip (s : text) : text :=
  match s with
  | [] => []
  | c :: s' => if is_space c then lstrip s' else s
  end.

Definition rstrip (s : text) : text := rev (lstrip (rev s)).

(** [s.strip()] *)
Definition strip (s : text) : text := rstrip (lstrip s).

(** Puts a character in front of the piece under construction. *)
Definition push_char (c : char) (pieces : list text) : list text :=
  match pieces with
  | [] => [[c]]
  | p :: ps => (c :: p) :: ps
  end.

(** [re.split(r'(?<=[.!?])\s+', s)].  The scan goes left to right;
    [lookbehind] tells that the previous character is in [[.!?]], and
    [in_sep] that the scan is inside a separator (the [\s+] of a match,
    which is greedy).  The head of the result is the piece that starts at
    the current position. *)
Fixpoint re_split_from (lookbehind in_sep : bool) (s : text) : list text :=
  match s with
  | [] => [[]]
  | c :: s' =>
      if is_space c
      then if in_sep then re_split_from false true s'
           else if lookbehind then [] :: re_split_from false true s'
           else push_char c (re_split_from false false s')
      else push_char c (re_split_from (is_terminal c) false s')
  end.

Definition re_split_sentences (s : text) : list text :=
  re_split_from false false s.

(** [sep.join(parts)] *)
Fixpoint join (sep : text) (parts : list text) : text :=
  match parts with
  | [] => []
  | [p] => p
  | p :: ps => p ++ sep ++ join sep ps
  end.

(** [str(n)] for a non-negative integer. *)
Definition str_of_nat (n : nat) : text :=
  str (NilZero.string_of_uint (Nat.to_uint n)).

(** [os.path.basename] (POSIX): what follows the last slash. *)
Fixpoint basename_from (acc : text) (p : text) : text :=
  match p with
  | [] => acc
  | c :: p' => if (c =? 47)%N then basename_from [] p'
               else basename_from (acc ++ [c]) p'
  end.

Definition basename (p : text) : text := basename_from [] p.

End PyStr.
Import PyStr.

(* ================================================================= *)
(** ** Exceptions *)

(** What a call that may raise gives back. *)
Inductive outcome (A : Type) : Type :=
| Returned (a : A)
| Raised (message : text).
Arguments Returned {A} a.
Arguments Raised {A} message.

(* ================================================================= *)
(** ** pdf_processor.py *)

Module SimplePDFProcessor.

(** The text of the pages, each followed by two newlines. *)
Definition pages_text (pages : list text) : text :=
  fold_left (fun full_text page => full_text ++ page ++ [NEWLINE; NEWLINE])
            pages [].

(** [full_text = re.sub(r'\s+', ' ', full_text).strip()] *)
Definition clean_text (full_text : text) : text :=
  strip (re_sub_ws full_text).

(** One turn of the loop over the sentences; the state is
    [(chunks, current_chunk)]. *)
Definition add_sentence (chunk_size : Z) (st : list text * text)
           (sentence : text) : list text * text :=
  let '(chunks, current_chunk) := st in
  if (len current_chunk + len sentence <? chunk_size)%Z
  then (chunks, current_chunk ++ sentence ++ [SPACE])
  else ((if truthy current_chunk
         then chunks ++ [strip current_chunk] else chunks),
        sentence ++ [SPACE]).

(** The loop and the emission of the trailing chunk. *)
Definition chunk_sentences (chunk_size : Z) (sentences : list text)
  : list text :=
  let '(chunks, current_chunk) :=
    fold_left (add_sentence chunk_size) sentences ([], []) in
  if truthy current_chunk
  then chunks ++ [strip current_chunk] else chunks.

(** The chunker proper: cleaning, sentence splitting, chunking. *)
Definition chunk_text (chunk_size : Z) (full_text : text) : list text :=
  chunk_sentences chunk_size (re_split_sentences (clean_text full_text)).

(** [load_pdf]: [pages] is what opening the file and extracting the text
    of each page gave; any exception there yields the empty list. *)
Definition load_pdf (chunk_size : Z) (pages : outcome (list text))
  : list text :=
  match pages with
  | Returned ps => chunk_text chunk_size (pages_text ps)
  | Raised _ => []
  end.

(** [process_pdf]: the chunks and whether there is at least one. *)
Definition process_pdf (chunk_size : Z) (pages : outcome (list text))
  : list text * bool :=
  let chunks := load_pdf chunk_size pages in
  (chunks, (0 <? len chunks)%Z).

End SimplePDFProcessor.

(* ================================================================= *)
(** ** config.py *)

Module Config.
Definition CHUNK_SIZE : Z := 1000.
Definition CHUNK_OVERLAP : Z := 200.
Definition TOP_K : Z := 3.
Definition EMBEDDING_MODEL : text := str "embed-english-v3.0".
Definition GENERATION_MODEL : text := str "command-r7b-12-2024".
End Config.

(* ================================================================= *)
(** ** Vectors ([numpy] on lists of floats) *)

Module Numeric.

Local Open Scope R_scope.

Definition vec := list R.

(** Sum of the products of the components, position by position. *)
Fixpoint dot (a b : vec) : R :=
  match a, b with
  | x :: a', y :: b' => x * y + dot a' b'
  | _, _ => 0
  end.

(** [np.dot(a, b)] on two one-dimensional sequences: a [ValueError] when
    their lengths differ. *)
Definition np_dot (a b : vec) : outcome R :=
  if (length a =? length b)%nat then Returned (dot a b)
  else Raised (str "shapes not aligned").

(** [np.linalg.norm(a)] *)
Definition norm (a : vec) : R := sqrt (dot a a).

(** [x == 0] on floats. *)
Definition is_zero (x : R) : bool :=
  if Req_dec_T x 0 then true else false.

(** [x < y] on floats. *)
Definition Rltb (x y : R) : bool :=
  if Rlt_dec x y then true else false.

End Numeric.
Import Numeric.

(* ================================================================= *)
(** ** Python lists *)

Module PyList.

(** [enumerate(l, start)] *)
Definition enumerate {A} (start : nat) (l : list A) : list (nat * A) :=
  combine (seq start (length l)) l.

(** [l[:k]]: a negative [k] counts from the end. *)
Definition slice_to {A} (k : Z) (l : list A) : list A :=
  if (k <? 0)%Z then firstn (Z.to_nat (len l + k)) l
  else firstn (Z.to_nat k) l.

(** [l[i]] for [i >= 0]: an [IndexError] past the end. *)
Definition index {A} (l : list A) (i : nat) : outcome A :=
  match nth_error l i with
  | Some x => Returned x
  | None => Raised (str "list index out of range")
  end.

(** [l.sort(key=lambda x: x[1], reverse=True)] on pairs whose second
    component is a float.  The sort of Python is stable, also with
    [reverse=True]: among equal keys the earlier element stays first.
    [insert_desc x l] puts [x], which comes before every element of [l]
    in the list being sorted, in front of the first element whose key is
    not greater than its own. *)
Fixpoint insert_desc {A} (x : A * R) (l : list (A * R)) : list (A * R) :=
  match l with
  | [] => [x]
  | y :: l' =>
      if Rltb (snd x) (snd y) then y :: insert_desc x l' else x :: l
  end.

Definition sort_desc {A} (l : list (A * R)) : list (A * R) :=
  fold_right insert_desc [] l.

End PyList.
Import PyList.

(** Sequencing of computations that may raise. *)
Definition and_then {A B} (c : outcome A) (k : A -> outcome B) : outcome B :=
  match c with
  | Returned a => k a
  | Raised e => Raised e
  end.

Notation "'try' x <- c ; k" := (and_then c (fun x => k))
  (at level 61, x name, c at next level, right associativity).

(* ================================================================= *)
(** ** The data of the retrieval engine *)

(** [{"source": ..., "chunk_id": ...}] *)
Record Metadata := { source : text; chunk_id : nat }.

(** One search result:
    [{"id": ..., "text": ..., "score": ..., "metadata": ...}] *)
Record Hit := {
  hit_id : nat;
  hit_text : text;
  hit_score : R;
  hit_metadata : Metadata
}.

Inductive Status := success | no_documents | no_results | fallback | error.

(** What [answer_question] returns. *)
Record QAResult := {
  question : text;
  answer : text;
  sources : list Hit;
  status : Status;
  model_used : option text
}.

(** The attributes of a [SimpleRAGSystem] that hold the corpus. *)
Record Store := {
  documents : list text;
  embeddings : list vec;
  metadata : list Metadata
}.

(** What [get_stats] returns. *)
Record Stats := {
  documents_loaded : Z;
  embeddings_created : Z;
  stats_chunk_size : Z;
  stats_top_k : Z;
  stats_embedding_model : text;
  stats_generation_model : text
}.

(** A remote call, as recorded in the trace. *)
Inductive Call :=
| CallEmbed (texts : list text) (model input_type : text)
| CallChat (message model : text)
| CallGenerate (prompt model : text).

(** The environment of the program: the file system, the PDF reader, the
    remote provider and the formatting of a float as a percentage
    ([format(x, '.N%')]), which is left to Python. *)
Record Env := {
  World : Type;
  path_exists : text -> World -> bool;
  read_pages : text -> World -> outcome (list text);
  co_embed : list text -> text -> text -> World -> outcome (list vec) * World;
  co_chat : text -> text -> World -> outcome text * World;
  co_generate : text -> text -> World -> outcome text * World;
  format_percent : nat -> R -> text
}.

(** The state that a method runs in. *)
Record Machine (E : Env) := {
  self : Store;
  world : World E;
  trace : list Call
}.
Arguments self {E} m.
Arguments world {E} m.
Arguments trace {E} m.
Arguments Build_Machine {E} self world trace.

(** A method: a function from the state to a result and the new state. *)
Definition M (E : Env) (A : Type) : Type := Machine E -> A * Machine E.

Definition ret {E A} (a : A) : M E A := fun m => (a, m).

Definition bind {E A B} (c : M E A) (k : A -> M E B) : M E B :=
  fun m => let (a, m') := c m in k a m'.

Notation "x <- c ;; k" := (bind c (fun x => k))
  (at level 61, c at next level, right associativity).
Notation "c ;; k" := (bind c (fun _ => k))
  (at level 61, right associativity).

Section Primitives.
Variable E : Env.

Definition get_self : M E Store := fun m => (self m, m).

Definition set_documents (d : list text) : M E unit := fun m =>
  (tt, Build_Machine
         {| documents := d; embeddings := embeddings (self m);
            metadata := metadata (self m) |} (world m) (trace m)).

Definition set_embeddings (e : list vec) : M E unit := fun m =>
  (tt, Build_Machine
         {| documents := documents (self m); embeddings := e;
            metadata := metadata (self m) |} (world m) (trace m)).

Definition set_metadata (md : list Metadata) : M E unit := fun m =>
  (tt, Build_Machine
         {| documents := documents (self m);
            embeddings := embeddings (self m);
            metadata := md |} (world m) (trace m)).

(** Reading the file system. *)
Definition ask {A} (f : World E -> A) : M E A := fun m => (f (world m), m).

(** [self.co.embed(texts=..., model=Config.EMBEDDING_MODEL,
    input_type=...)] *)
Definition embed (texts : list text) (input_type : text)
  : M E (outcome (list vec)) := fun m =>
  let (r, w) := co_embed E texts Config.EMBEDDING_MODEL input_type (world m) in
  (r, Build_Machine (self m) w
        (trace m ++ [CallEmbed texts Config.EMBEDDING_MODEL input_type])).

(** [self.co.chat(message=..., model=Config.GENERATION_MODEL, ...)] *)
Definition chat (message : text) : M E (outcome text) := fun m =>
  let (r, w) := co_chat E message Config.GENERATION_MODEL (world m) in
  (r, Build_Machine (self m) w
        (trace m ++ [CallChat message Config.GENERATION_MODEL])).

(** [self.co.generate(model=Config.GENERATION_MODEL, prompt=..., ...)] *)
Definition generate (prompt : text) : M E (outcome text) := fun m =>
  let (r, w) := co_generate E prompt Config.GENERATION_MODEL (world m) in
  (r, Build_Machine (self m) w
        (trace m ++ [CallGenerate prompt Config.GENERATION_MODEL])).

(** A new [SimpleRAGSystem]. *)
Definition init (w : World E) : Machine E :=
  Build_Machine {| documents := []; embeddings := []; metadata := [] |} w [].

End Primitives.
Arguments get_self {E}.
Arguments set_documents {E}.
Arguments set_embeddings {E}.
Arguments set_metadata {E}.
Arguments ask {E A}.
Arguments embed {E}.
Arguments chat {E}.
Arguments generate {E}.
Arguments init {E}.

(* ================================================================= *)
(** ** simple_rag.py *)

Module SimpleRag.

Section Methods.
Variable E : Env.

Local Open Scope R_scope.

(** [_cosine_similarity]: any exception in the body (here the
    [ValueError] of [np.dot]) is caught and gives [0]. *)
Definition _cosine_similarity (vec1 vec2 : vec) : R :=
  match np_dot vec1 vec2 with
  | Returned dot_product =>
      let norm1 := norm vec1 in
      let norm2 := norm vec2 in
      if is_zero norm1 || is_zero norm2 then 0
      else dot_product / (norm1 * norm2)
  | Raised _ => 0
  end.

Local Close Scope R_scope.

(** The list [similarities] before it is sorted. *)
Definition similarities (query_embedding : vec) (embs : list vec)
  : list (nat * R) :=
  map (fun p => (fst p, _cosine_similarity query_embedding (snd p)))
      (enumerate 0 embs).

(** The loop that builds [results]. *)
Fixpoint results (s : Store) (top : list (nat * (nat * R)))
  : outcome (list Hit) :=
  match top with
  | [] => Returned []
  | (i, (doc_idx, score)) :: rest =>
      try doc <- index (documents s) doc_idx;
      try md <- index (metadata s) doc_idx;
      try tail <- results s rest;
      Returned ({| hit_id := i + 1; hit_text := doc;
                   hit_score := score; hit_metadata := md |} :: tail)
  end.

(** The body of the [try] of [search] once the provider has answered. *)
Definition ranking (s : Store) (query_response : list vec) (top_k : Z)
  : outcome (list Hit) :=
  try query_embedding <- index query_response 0;
  let sims := sort_desc (similarities query_embedding (embeddings s)) in
  results s (enumerate 0 (slice_to top_k sims)).

Definition search (query : text) (top_k : Z) : M E (list Hit) :=
  s <- get_self ;;
  if negb (truthy (embeddings s)) then ret []
  else
    query_response <- embed [query] (str "search_query") ;;
    ret (match (try r <- query_response; ranking s r top_k) with
         | Returned found => found
         | Raised _ => []
         end).

(** [process_document] *)
Definition process_document (pdf_path : text) : M E bool :=
  present <- ask (path_exists E pdf_path) ;;
  if negb present then ret false
  else
    pages <- ask (read_pages E pdf_path) ;;
    let '(chunks, ok) :=
      SimplePDFProcessor.process_pdf Config.CHUNK_SIZE pages in
    if negb ok then ret false
    else
      response <- embed chunks (str "search_document") ;;
      match response with
      | Returned response_embeddings =>
          set_documents chunks ;;
          set_embeddings response_embeddings ;;
          set_metadata
            (map (fun i => {| source := basename pdf_path; chunk_id := i |})
                 (seq 0 (length chunks))) ;;
          ret true
      | Raised _ => ret false
      end.

(** [process_pdf], the name the front end calls. *)
Definition process_pdf (pdf_path : text) : M E bool :=
  process_document pdf_path.

Definition NO_DOCUMENTS_ANSWER : text :=
  [9888; 65039]%N ++
  str " No documents have been processed yet. Please upload and process a PDF first.".

Definition NO_RESULTS_ANSWER : text :=
  [10060]%N ++
  str " I couldn't find any relevant information in the document for your question.".

(** One entry of [context_parts]. *)
Definition context_part (chunk : Hit) : text :=
  str "[Source " ++ str_of_nat (hit_id chunk) ++ str ", Relevance: "
  ++ format_percent E 2 (hit_score chunk) ++ str "]" ++ [NEWLINE]
  ++ hit_text chunk.

Definition context_of (relevant_chunks : list Hit) : text :=
  join [NEWLINE; NEWLINE] (map context_part relevant_chunks).

Definition chat_message (context question_ : text) : text :=
  join [NEWLINE]
    [ str "You are a helpful assistant that answers questions based on the provided context.";
      [];
      str "CONTEXT FROM DOCUMENT:";
      context;
      [];
      str "INSTRUCTIONS:";
      str "1. Answer the question based ONLY on the context provided above";
      str "2. If the context doesn't contain the answer, say " ++ [DQUOTE]
        ++ str "I cannot find this information in the document" ++ [DQUOTE];
      str "3. Be concise and accurate";
      str "4. Reference which source(s) you used when applicable";
      str "5. If the question is about the document's main topic, summarize what the document is about";
      [];
      str "QUESTION: " ++ question_;
      [];
      str "ANSWER:" ].

(** One turn of the loop of the fallback: two [+=]. *)
Definition fallback_step (fallback_answer : text) (p : nat * Hit) : text :=
  let '(i, chunk) := p in
  let fallback_answer :=
    fallback_answer ++ str "**Source " ++ str_of_nat i
    ++ str "** (Relevance: " ++ format_percent E 1 (hit_score chunk)
    ++ str "):" ++ [NEWLINE] in
  fallback_answer ++ slice_to 200 (hit_text chunk) ++ str "..."
  ++ [NEWLINE; NEWLINE].

Definition fallback_answer_of (relevant_chunks : list Hit) : text :=
  fold_left fallback_step (enumerate 1 (slice_to 3 relevant_chunks))
    (str "Based on the document, here's what I found:"
     ++ [NEWLINE; NEWLINE]).

Definition answer_question (question_ : text) : M E QAResult :=
  s <- get_self ;;
  if negb (truthy (documents s))
  then ret {| question := question_; answer := NO_DOCUMENTS_ANSWER;
              sources := []; status := no_documents;
              model_used := None |}
  else
    relevant_chunks <- search question_ Config.TOP_K ;;
    if negb (truthy relevant_chunks)
    then ret {| question := question_; answer := NO_RESULTS_ANSWER;
                sources := []; status := no_results;
                model_used := None |}
    else
      let context := context_of relevant_chunks in
      response <- chat (chat_message context question_) ;;
      match response with
      | Returned response_text =>
          ret {| question := question_; answer := strip response_text;
                 sources := relevant_chunks; status := success;
                 model_used := Some Config.GENERATION_MODEL |}
      | Raised _ =>
          ret {| question := question_;
                 answer := fallback_answer_of relevant_chunks;
                 sources := relevant_chunks; status := fallback;
                 model_used := None |}
      end.

(** [query]: the answer alone. *)
Definition query (question_ : text) : M E text :=
  result <- answer_question question_ ;;
  ret (answer result).

(** [get_stats] *)
Definition get_stats : M E Stats :=
  s <- get_self ;;
  ret {| documents_loaded := len (documents s);
         embeddings_created := len (embeddings s);
         stats_chunk_size := Config.CHUNK_SIZE;
         stats_top_k := Config.TOP_K;
         stats_embedding_model := Config.EMBEDDING_MODEL;
         stats_generation_model := Config.GENERATION_MODEL |}.

End Methods.

End SimpleRag.

(* ================================================================= *)
(** ** rag_simple.py *)

Module RagSimple.

Section Methods.
Variable E : Env.

Local Open Scope R_scope.

(** [_cosine_similarity] has no handler of its own here: the
    [ValueError] of [np.dot] reaches the caller. *)
Definition _cosine_similarity (vec1 vec2 : vec) : outcome R :=
  try dot_product <- np_dot vec1 vec2;
  let norm1 := norm vec1 in
  let norm2 := norm vec2 in
  if is_zero norm1 || is_zero norm2 then Returned 0
  else Returned (dot_product / (norm1 * norm2)).

Local Close Scope R_scope.

Fixpoint similarities (query_embedding : vec) (embs : list (nat * vec))
  : outcome (list (nat * R)) :=
  match embs with
  | [] => Returned []
  | (i, doc_embedding) :: rest =>
      try similarity <- _cosine_similarity query_embedding doc_embedding;
      try tail <- similarities query_embedding rest;
      Returned ((i, similarity) :: tail)
  end.

Definition ranking (s : Store) (query_response : list vec) (top_k : Z)
  : outcome (list Hit) :=
  try query_embedding <- index query_response 0;
  try sims <- similarities query_embedding (enumerate 0 (embeddings s));
  SimpleRag.results s (enumerate 0 (slice_to top_k (sort_desc sims))).

Definition search (query : text) (top_k : Z) : M E (list Hit) :=
  s <- get_self ;;
  if negb (truthy (embeddings s)) then ret []
  else
    query_response <- embed [query] (str "search_query") ;;
    ret (match (try r <- query_response; ranking s r top_k) with
         | Returned found => found
         | Raised _ => []
         end).

Definition NO_RESULTS_ANSWER : text :=
  str "I couldn't find any relevant information in the document. Please make sure a document has been processed first.".

Definition prompt_of (context question_ : text) : text :=
  join [NEWLINE]
    [ str "Based on the following context from a document, answer the question.";
      str "            ";
      str "CONTEXT:";
      context;
      [];
      str "QUESTION: " ++ question_;
      [];
      str "INSTRUCTIONS:";
      str "1. Answer based ONLY on the context provided";
      str "2. If the context doesn't contain the answer, say " ++ [DQUOTE]
        ++ str "I cannot find this information in the document" ++ [DQUOTE];
      str "3. Be concise and accurate";
      str "4. Reference which source(s) you used";
      [];
      str "ANSWER:" ].

Definition answer_question (question_ : text) : M E QAResult :=
  relevant_chunks <- search question_ Config.TOP_K ;;
  if negb (truthy relevant_chunks)
  then ret {| question := question_; answer := NO_RESULTS_ANSWER;
              sources := []; status := no_results; model_used := None |}
  else
    let context := SimpleRag.context_of E relevant_chunks in
    response <- generate (prompt_of context question_) ;;
    match response with
    | Returned generated =>
        ret {| question := question_; answer := strip generated;
               sources := relevant_chunks; status := success;
               model_used := None |}
    | Raised e =>
        ret {| question := question_;
               answer := str "Error generating answer: " ++ e;
               sources := relevant_chunks; status := error;
               model_used := None |}
    end.

(** [process_document]: as in [simple_rag.py], without the test that the
    file exists. *)
Definition process_document (pdf_path : text) : M E bool :=
  pages <- ask (read_pages E pdf_path) ;;
  let '(chunks, ok) :=
    SimplePDFProcessor.process_pdf Config.CHUNK_SIZE pages in
  if negb ok then ret false
  else
    response <- embed chunks (str "search_document") ;;
    match response with
    | Returned response_embeddings =>
        set_documents chunks ;;
        set_embeddings response_embeddings ;;
        set_metadata
          (map (fun i => {| source := basename pdf_path; chunk_id := i |})
               (seq 0 (length chunks))) ;;
        ret true
    | Raised _ => ret false
    end.

End Methods.

End RagSimple.

(* ================================================================= *)
(** ** Shapes of strings and of chunks, used to state the properties *)

Module Shape.

(** The string starts with a character that is not white space. *)
Definition head_nonspace (p : text) : bool :=
  match p with
  | c :: _ => negb (is_space c)
  | [] => false
  end.

(** Neither empty nor with white space at either end. *)
Definition tight (p : text) : Prop :=
  head_nonspace p = true /\ head_nonspace (rev p) = true.

(** Every white-space character is a space and is not followed by
    another one. *)
Fixpoint collapsed (s : text) : Prop :=
  match s with
  | [] => True
  | c :: s' =>
      (is_space c = true ->
       c = SPACE /\ (s' = [] \/ head_nonspace s' = true))
      /\ collapsed s'
  end.

(** Every white-space character is a space and is followed by a
    character that is not white space. *)
Fixpoint well_spaced (s : text) : Prop :=
  match s with
  | [] => True
  | c :: s' =>
      (is_space c = true -> c = SPACE /\ head_nonspace s' = true)
      /\ well_spaced s'
  end.

(** The value of [current_chunk] when the sentences of [p] are pending. *)
Definition pending_text (p : list text) : text :=
  match p with
  | [] => []
  | _ :: _ => join [SPACE] p ++ [SPACE]
  end.

(** The bound on a chunk made of the sentences [g]. *)
Definition within (chunk_size : Z) (g : list text) : Prop :=
  (len (join [SPACE] g) <= chunk_size)%Z
  \/ exists s, g = [s] /\ (chunk_size < len s)%Z.

End Shape.
Import Shape.

(* ================================================================= *)
(** ** Orderings, invariants and runs, used to state the properties *)

Module Ranking.

(** [x] comes before [y] in the ranking: a higher score, or the same
    score and a smaller index. *)
Definition ranks_before (x y : nat * R) : Prop :=
  (snd y < snd x)%R \/ (snd x = snd y /\ fst x < fst y).

(** The same on search results, the index being the [chunk_id] of the
    metadata. *)
Definition hit_before (h1 h2 : Hit) : Prop :=
  (hit_score h2 < hit_score h1)%R
  \/ (hit_score h1 = hit_score h2
      /\ chunk_id (hit_metadata h1) < chunk_id (hit_metadata h2)).

(** Every chunk has its metadata, which carries its index. *)
Definition aligned (s : Store) : Prop :=
  length (metadata s) = length (documents s)
  /\ forall i md, nth_error (metadata s) i = Some md -> chunk_id md = i.

(** The store that a successful ingestion leaves. *)
Definition ingested (pdf_path : text) (chunks : list text)
           (response_embeddings : list vec) : Store :=
  {| documents := chunks;
     embeddings := response_embeddings;
     metadata :=
       map (fun i => {| source := basename pdf_path; chunk_id := i |})
           (seq 0 (length chunks)) |}.

(** The result [h] was built from the entry [t] of the ranking, which
    is [(position, (doc_idx, score))]. *)
Definition hit_matches (s : Store) (t : nat * (nat * R)) (h : Hit) : Prop :=
  hit_id h = fst t + 1
  /\ hit_score h = snd (snd t)
  /\ nth_error (documents s) (fst (snd t)) = Some (hit_text h)
  /\ nth_error (metadata s) (fst (snd t)) = Some (hit_metadata h).

(** One block of the fallback answer. *)
Definition fallback_block (E : Env) (p : nat * Hit) : text :=
  str "**Source " ++ str_of_nat (fst p) ++ str "** (Relevance: "
  ++ format_percent E 1 (hit_score (snd p)) ++ str "):" ++ [NEWLINE]
  ++ firstn 200 (hit_text (snd p)) ++ str "..." ++ [NEWLINE; NEWLINE].

Definition FALLBACK_HEADER : text :=
  str "Based on the document, here's what I found:" ++ [NEWLINE; NEWLINE].

(** What [answer_question] returns when the ranking is empty. *)
Definition no_results_result (question_ : text) : QAResult :=
  {| question := question_; answer := SimpleRag.NO_RESULTS_ANSWER;
     sources := []; status := no_results; model_used := None |}.

(** What [answer_question] returns when nothing is stored. *)
Definition no_documents_result (question_ : text) : QAResult :=
  {| question := question_; answer := SimpleRag.NO_DOCUMENTS_ANSWER;
     sources := []; status := no_documents; model_used := None |}.

End Ranking.
Import Ranking.

Section Runs.
Variable E : Env.

(** The states of a session: a new system, then any sequence of calls,
    between which the world may change. *)
Inductive reachable : Machine E -> Prop :=
| reach_init (w : World E) : reachable (init w)
| reach_world (m : Machine E) (w : World E) :
    reachable m -> reachable (Build_Machine (self m) w (trace m))
| reach_process (m : Machine E) (pdf_path : text) :
    reachable m -> reachable (snd (SimpleRag.process_document E pdf_path m))
| reach_search (m : Machine E) (query : text) (top_k : Z) :
    reachable m -> reachable (snd (SimpleRag.search E query top_k m))
| reach_answer (m : Machine E) (question_ : text) :
    reachable m -> reachable (snd (SimpleRag.answer_question E question_ m)).

(** The states of a session in which no ingestion has succeeded. *)
Inductive never_ingested : Machine E -> Prop :=
| fresh_init (w : World E) : never_ingested (init w)
| fresh_world (m : Machine E) (w : World E) :
    never_ingested m -> never_ingested (Build_Machine (self m) w (trace m))
| fresh_failed (m : Machine E) (pdf_path : text) :
    never_ingested m ->
    fst (SimpleRag.process_document E pdf_path m) = false ->
    never_ingested (snd (SimpleRag.process_document E pdf_path m))
| fresh_search (m : Machine E) (query : text) (top_k : Z) :
    never_ingested m ->
    never_ingested (snd (SimpleRag.search E query top_k m))
| fresh_answer (m : Machine E) (question_ : text) :
    never_ingested m ->
    never_ingested (snd (SimpleRag.answer_question E question_ m)).

End Runs.

(* ================================================================= *)
(** ** Concrete environments *)

Module Scenario.

(** The world is one bit: whether the remote provider is up.  The file
    holds [pages]; the provider, when up, embeds every text as
    [embedding] and answers every chat with [reply]. *)
Definition env (pages : outcome (list text))
           (embed_reply : list text -> list vec)
           (reply : outcome text) : Env :=
  {| World := bool;
     path_exists := fun _ _ => true;
     read_pages := fun _ _ => pages;
     co_embed := fun texts _ _ up =>
       (if up then Returned (embed_reply texts)
        else Raised (str "service unavailable"), up);
     co_chat := fun _ _ up =>
       (if up then reply else Raised (str "service unavailable"), up);
     co_generate := fun _ _ up =>
       (if up then reply else Raised (str "service unavailable"), up);
     format_percent := fun _ _ => str "%" |}.

Definition one_per_text (texts : list text) : list vec :=
  map (fun _ => [1%R]) texts.

Definition PATH : text := str "/tmp/report.pdf".
Definition QUESTION : text := str "What is this document about?".

(** A document of two sentences, a provider that works. *)
Definition env_ok : Env :=
  env (Returned [str "Hello world. Bye."]) one_per_text
      (Returned (str " Fine. ")).

(** The same with a generation call that always raises. *)
Definition env_no_chat : Env :=
  env (Returned [str "Hello world. Bye."]) one_per_text
      (Raised (str "model not found")).

(** A provider that returns no embedding at all. *)
Definition env_short : Env :=
  env (Returned [str "Hello world. Bye."]) (fun _ => [])
      (Returned (str " Fine. ")).

(** A document whose only page has no text. *)
Definition env_blank : Env :=
  env (Returned [[]]) one_per_text (Returned (str " Fine. ")).

(** The system after the ingestion of the document. *)
Definition loaded (E : Env) (w : World E) : Machine E :=
  snd (SimpleRag.process_document E PATH (init w)).

(** The same once the provider has gone down. *)
Definition loaded_then_down (E : Env) (w w' : World E) : Machine E :=
  Build_Machine (self (loaded E w)) w' (trace (loaded E w)).

(** The system after the ingestion under [env_ok], at a time when the
    provider is down. *)
Definition orphaned : Machine env_ok := loaded_then_down env_ok true false.

End Scenario.

(* ================================================================= *)
(** ** Further notions used to state the properties *)

Module Notions.

(** The string ends with one of [.], [!], [?]. *)
Definition ends_with_terminal (p : text) : bool :=
  match rev p with
  | c :: _ => is_terminal c
  | [] => false
  end.

(** The vector with every component multiplied by [k]. *)
Definition scale (k : R) (a : vec) : vec := map (Rmult k) a.

(** The slash, which separates the components of a path. *)
Definition SLASH : char := 47%N.

(** The chunk index that a result carries. *)
Definition hit_chunk (h : Hit) : nat := chunk_id (hit_metadata h).

(** The remote calls that [answer_question] makes, by the status it
    returns: none without documents, the embedding of the question alone
    when the ranking is empty (and not even that when no embedding is
    stored), and the generation call after it otherwise. *)
Definition calls_of_answer (E : Env) (store : Store) (result : QAResult)
  : list Call :=
  let embedded :=
    CallEmbed [question result] Config.EMBEDDING_MODEL (str "search_query") in
  match status result with
  | no_documents => []
  | no_results => if truthy (embeddings store) then [embedded] else []
  | success | fallback =>
      [embedded;
       CallChat (SimpleRag.chat_message
                   (SimpleRag.context_of E (sources result))
                   (question result))
                Config.GENERATION_MODEL]
  | error => []
  end.

End Notions.
Import Notions.

(** A provider whose vectors have as many components as the text has
    characters, so that a question and a chunk of different lengths get
    embeddings of different dimensions. *)
Module Mismatch.

Definition by_length (texts : list text) : list vec :=
  map (fun t => repeat 1%R (length t)) texts.

Definition env_by_length : Env :=
  Scenario.env (Returned [str "Hello world. Bye."]) by_length
               (Returned (str " Fine. ")).

Definition loaded : Machine env_by_length :=
  Scenario.loaded env_by_length true.

End Mismatch.

(* ================================================================= *)
(** ** Sentence boundaries and the pairs of a ranking *)

Module Boundary.

(** Somewhere inside the string one of [.], [!], [?] is followed by white
    space: the place where [re.split] cuts. *)
Fixpoint inner_boundary (p : text) : bool :=
  match p with
  | c :: p' =>
      match p' with
      | d :: _ => (is_terminal c && is_space d) || inner_boundary p'
      | [] => false
      end
  | [] => false
  end.

(** The string starts with white space. *)
Definition head_space (p : text) : bool :=
  match p with
  | c :: _ => is_space c
  | [] => false
  end.

(** The chunk index and the score of a result. *)
Definition rank_pair (h : Hit) : nat * R := (hit_chunk h, hit_score h).

End Boundary.
Import Boundary.

(* ================================================================= *)
(** ** Sessions of rag_simple.py *)

Section LegacyRuns.
Variable E : Env.

(** The states of a session of [rag_simple.py] in which no ingestion has
    succeeded. *)
Inductive legacy_never_ingested : Machine E -> Prop :=
| legacy_fresh_init (w : World E) : legacy_never_ingested (init w)
| legacy_fresh_world (m : Machine E) (w : World E) :
    legacy_never_ingested m ->
    legacy_never_ingested (Build_Machine (self m) w (trace m))
| legacy_fresh_failed (m : Machine E) (pdf_path : text) :
    legacy_never_ingested m ->
    fst (RagSimple.process_document E pdf_path m) = false ->
    legacy_never_ingested (snd (RagSimple.process_document E pdf_path m))
| legacy_fresh_search (m : Machine E) (query : text) (top_k : Z) :
    legacy_never_ingested m ->
    legacy_never_ingested (snd (RagSimple.search E query top_k m))
| legacy_fresh_answer (m : Machine E) (question_ : text) :
    legacy_never_ingested m ->
    legacy_never_ingested (snd (RagSimple.answer_question E question_ m)).

End LegacyRuns.

(* ================================================================= *)
(** ** A corpus of three chunks *)

(** A document of three sentences of 601 characters, so that with
    [Config.CHUNK_SIZE = 1000] each sentence is a chunk of its own.  The
    provider embeds the chunks as the three unit vectors, in order, and a
    single text, the question, as the second of them. *)
Module Corpus.

Definition sentence (c : char) : text := repeat c 600 ++ str ".".

Definition CHUNK_A : text := sentence 97%N.
Definition CHUNK_B : text := sentence 98%N.
Definition CHUNK_C : text := sentence 99%N.

Definition PAGE : text :=
  CHUNK_A ++ [SPACE] ++ CHUNK_B ++ [NEWLINE] ++ CHUNK_C.

Definition UNITS : list vec := [[1; 0; 0]; [0; 1; 0]; [0; 0; 1]]%R.

Definition QUERY_VECTOR : vec := [0; 1; 0]%R.

Definition embed_reply (texts : list text) : list vec :=
  match texts with
  | [_] => [QUERY_VECTOR]
  | _ => firstn (length texts) UNITS
  end.

Definition env_units : Env :=
  Scenario.env (Returned [PAGE]) embed_reply
               (Raised (str "model not found")).

Definition loaded : Machine env_units := Scenario.loaded env_units true.

(** The ranking of the three chunks for the question: chunk 1 with score
    1, then chunks 0 and 2, tied on score 0. *)
Definition RANKING : list (nat * R) := [(1, 1%R); (0, 0%R); (2, 0%R)].

End Corpus.

(* ================================================================= *)
(** * Properties *)

(* ================================================================= *)
(** ** Runs on concrete inputs *)

Example clean_text_run :
  SimplePDFProcessor.clean_text (str "  Hello.   World!  Bye ")
  = str "Hello. World! Bye".
Proof. vm_compute. reflexivity. Qed.

Example re_split_run :
  re_split_sentences (str "Hello. World! Bye")
  = [str "Hello."; str "World!"; str "Bye"].
Proof. vm_compute. reflexivity. Qed.

Example re_split_trailing_separator :
  re_split_sentences (str "a. ") = [str "a."; []].
Proof. vm_compute. reflexivity. Qed.

Example chunk_text_run :
  SimplePDFProcessor.chunk_text 10 (str "Aa. Bb. Cccccccccccc. Dd.")
  = [str "Aa. Bb."; str "Cccccccccccc."; str "Dd."].
Proof. vm_compute. reflexivity. Qed.

Example chunk_text_blank :
  SimplePDFProcessor.chunk_text 10 (str "  ") = [[]].
Proof. vm_compute. reflexivity. Qed.

Example basename_run : basename (str "/tmp/x/doc.pdf") = str "doc.pdf".
Proof. vm_compute. reflexivity. Qed.

Example str_of_nat_run : str_of_nat 12 = str "12".
Proof. vm_compute. reflexivity. Qed.

Example is_space_run :
  map is_space [9; 13; 28; 32; 133; 160; 5760; 8192; 8202; 8232; 8287; 12288]%N
  = repeat true 12
  /\ map is_space [0; 8; 14; 27; 33; 46; 65; 134; 8203; 8234; 12289]%N
     = repeat false 11.
Proof. split; reflexivity. Qed.

Example slice_to_run :
  slice_to (-1) [1; 2; 3; 4] = [1; 2; 3] /\ slice_to (-9) [1; 2; 3; 4] = []
  /\ slice_to 0 [1; 2; 3] = [] /\ slice_to 5 [1; 2; 3] = [1; 2; 3].
Proof. repeat split. Qed.

Example ingestion_run :
  documents (self (Scenario.loaded Scenario.env_ok true))
  = [str "Hello world. Bye."]
  /\ metadata (self (Scenario.loaded Scenario.env_ok true))
     = [{| source := str "report.pdf"; chunk_id := 0 |}]
  /\ trace (Scenario.loaded Scenario.env_ok true)
     = [CallEmbed [str "Hello world. Bye."] Config.EMBEDDING_MODEL
                  (str "search_document")].
Proof. repeat split. Qed.

(* ================================================================= *)
(** ** Vectors and cosine similarity *)

Section NumericFacts.

Local Open Scope R_scope.

Lemma dot_comm (a : vec) : forall b, dot a b = dot b a.
Proof.
  induction a as [|x a IH]; intros [|y b]; simpl; try reflexivity.
  rewrite IH. ring.
Qed.

Lemma dot_self_nonneg (a : vec) : 0 <= dot a a.
Proof.
  induction a as [|x a IH]; simpl; [lra|].
  pose proof (Rle_0_sqr x) as Hx. unfold Rsqr in Hx. lra.
Qed.

Lemma cross_term_bound (x y d A B : R) :
  0 <= A -> 0 <= B -> d * d <= A * B ->
  2 * (x * y) * d <= x * x * B + y * y * A.
Proof.
  intros HA HB Hd.
  pose proof (sqrt_pos A) as Hp. pose proof (sqrt_pos B) as Hq.
  pose proof (sqrt_sqrt A HA) as EA. pose proof (sqrt_sqrt B HB) as EB.
  set (p := sqrt A) in *. set (q := sqrt B) in *.
  rewrite <- EA, <- EB in *.
  assert (Hpq : 0 <= p * q) by (apply Rmult_le_pos; assumption).
  assert (Hd' : d * d <= (p * q) * (p * q)) by lra.
  assert (Hrange : - (p * q) <= d <= p * q) by nra.
  pose proof (Rle_0_sqr (x * q - y * p)) as S1.
  pose proof (Rle_0_sqr (x * q + y * p)) as S2.
  unfold Rsqr in S1, S2.
  destruct (Rle_dec 0 (x * y)) as [Hxy|Hxy].
  - assert (x * y * d <= x * y * (p * q))
      by (apply Rmult_le_compat_l; lra).
    lra.
  - assert (x * y * (p * q) <= x * y * d).
    { apply Ropp_le_cancel.
      replace (- (x * y * d)) with ((- (x * y)) * d) by ring.
      replace (- (x * y * (p * q))) with ((- (x * y)) * (p * q)) by ring.
      apply Rmult_le_compat_l; lra. }
    assert (x * y * d <= - (x * y) * (p * q)).
    { replace (x * y * d) with ((- (x * y)) * (- d)) by ring.
      apply Rmult_le_compat_l; lra. }
    lra.
Qed.

(** Cauchy-Schwarz, on the common prefix when the lengths differ. *)
Lemma dot_cauchy_schwarz (a : vec) :
  forall b, dot a b * dot a b <= dot a a * dot b b.
Proof.
  induction a as [|x a IH]; intros [|y b]; simpl.
  - lra.
  - lra.
  - pose proof (dot_self_nonneg (x :: a)) as H. simpl in H. lra.
  - specialize (IH b).
    pose proof (dot_self_nonneg a) as HA.
    pose proof (dot_self_nonneg b) as HB.
    pose proof (cross_term_bound x y _ _ _ HA HB IH) as Hmix.
    lra.
Qed.

Lemma norm_nonneg (a : vec) : 0 <= norm a.
Proof. apply sqrt_pos. Qed.

Lemma norm_sqr (a : vec) : norm a * norm a = dot a a.
Proof. apply sqrt_sqrt, dot_self_nonneg. Qed.

Lemma is_zero_true (x : R) : is_zero x = true <-> x = 0.
Proof.
  unfold is_zero. destruct (Req_dec_T x 0); split; congruence.
Qed.

Lemma is_zero_false (x : R) : is_zero x = false <-> x <> 0.
Proof.
  unfold is_zero. destruct (Req_dec_T x 0); split; congruence.
Qed.

Lemma norms_product_nonzero (a b : vec) :
  norm a <> 0 -> norm b <> 0 -> norm a * norm b <> 0.
Proof. intros Ha Hb. apply Rmult_integral_contrapositive; auto. Qed.

Lemma np_dot_same_length (a b : vec) :
  length a = length b -> np_dot a b = Returned (dot a b).
Proof. intros H. unfold np_dot. rewrite H, Nat.eqb_refl. reflexivity. Qed.

Lemma np_dot_sym (a b : vec) :
  np_dot a b = np_dot b a.
Proof.
  unfold np_dot. rewrite (Nat.eqb_sym (length b) (length a)).
  destruct (length a =? length b)%nat; [rewrite dot_comm|]; reflexivity.
Qed.

(** The value of the similarity, case by case. *)
Lemma cosine_zero_norm (a b : vec) :
  norm a = 0 \/ norm b = 0 -> SimpleRag._cosine_similarity a b = 0.
Proof.
  intros H. unfold SimpleRag._cosine_similarity.
  destruct (np_dot a b); [|reflexivity].
  destruct H as [H|H]; apply is_zero_true in H; rewrite H;
    [|rewrite orb_true_r]; reflexivity.
Qed.

Lemma cosine_quotient (a b : vec) :
  length a = length b -> norm a <> 0 -> norm b <> 0 ->
  SimpleRag._cosine_similarity a b = dot a b / (norm a * norm b).
Proof.
  intros Hlen Ha Hb. unfold SimpleRag._cosine_similarity.
  rewrite (np_dot_same_length _ _ Hlen).
  apply is_zero_false in Ha, Hb. rewrite Ha, Hb. reflexivity.
Qed.

Lemma quotient_in_range (a b : vec) :
  norm a <> 0 -> norm b <> 0 ->
  -1 <= dot a b / (norm a * norm b) <= 1.
Proof.
  intros Ha Hb.
  pose proof (norm_nonneg a) as Pa. pose proof (norm_nonneg b) as Pb.
  assert (Hpos : 0 < norm a * norm b) by (apply Rmult_lt_0_compat; lra).
  pose proof (dot_cauchy_schwarz a b) as CS.
  rewrite <- (norm_sqr a), <- (norm_sqr b) in CS.
  set (p := norm a * norm b) in *. set (d := dot a b) in *.
  assert (Hd : d * d <= p * p) by (unfold p; nra).
  assert (Habs : - p <= d <= p) by nra.
  split.
  - apply Rmult_le_reg_r with p; [exact Hpos|].
    unfold Rdiv. rewrite Rmult_assoc, Rinv_l by lra. lra.
  - apply Rmult_le_reg_r with p; [exact Hpos|].
    unfold Rdiv. rewrite Rmult_assoc, Rinv_l by lra. lra.
Qed.

Lemma cosine_in_range (a b : vec) :
  -1 <= SimpleRag._cosine_similarity a b <= 1.
Proof.
  unfold SimpleRag._cosine_similarity.
  destruct (np_dot a b) as [d|] eqn:Hd; [|lra].
  destruct (is_zero (norm a)) eqn:Ha; [simpl; lra|].
  destruct (is_zero (norm b)) eqn:Hb; [simpl; lra|].
  simpl. apply is_zero_false in Ha, Hb.
  unfold np_dot in Hd.
  destruct (length a =? length b)%nat; [|discriminate].
  injection Hd as <-. apply quotient_in_range; assumption.
Qed.

Lemma cosine_self (a : vec) :
  norm a <> 0 -> SimpleRag._cosine_similarity a a = 1.
Proof.
  intros Ha. rewrite cosine_quotient by auto.
  rewrite <- norm_sqr. field. assumption.
Qed.

Lemma cosine_sym (a b : vec) :
  SimpleRag._cosine_similarity a b = SimpleRag._cosine_similarity b a.
Proof.
  unfold SimpleRag._cosine_similarity. rewrite (np_dot_sym a b).
  destruct (np_dot b a); [|reflexivity].
  rewrite (orb_comm (is_zero (norm a))), (Rmult_comm (norm a)).
  reflexivity.
Qed.

Lemma cosine_sym_legacy (a b : vec) :
  RagSimple._cosine_similarity a b = RagSimple._cosine_similarity b a.
Proof.
  unfold RagSimple._cosine_similarity, and_then. rewrite (np_dot_sym a b).
  destruct (np_dot b a); [|reflexivity].
  rewrite (orb_comm (is_zero (norm a))), (Rmult_comm (norm a)).
  reflexivity.
Qed.

End NumericFacts.

(** C8.  In exact arithmetic [_cosine_similarity] is [0] as soon as one of the
    two norms is zero, so the division is only reached with a non-zero
    denominator; for two vectors of one dimension and non-zero norms it is
    [dot(a,b) / (||a|| * ||b||)]; it always lies in [[-1, 1]]; and the
    similarity of a vector of non-zero norm with itself is [1]. *)
Theorem cosine_similarity_contract :
  (forall a b : vec,
      norm a = 0%R \/ norm b = 0%R -> SimpleRag._cosine_similarity a b = 0%R)
  /\ (forall a b : vec,
         norm a <> 0%R -> norm b <> 0%R -> (norm a * norm b)%R <> 0%R)
  /\ (forall a b : vec,
         length a = length b -> norm a <> 0%R -> norm b <> 0%R ->
         SimpleRag._cosine_similarity a b
         = (dot a b / (norm a * norm b))%R)
  /\ (forall a b : vec,
         (-1 <= SimpleRag._cosine_similarity a b <= 1)%R)
  /\ (forall a : vec,
         norm a <> 0%R -> SimpleRag._cosine_similarity a a = 1%R).
Proof.
  repeat split.
  - apply cosine_zero_norm; assumption.
  - apply norms_product_nonzero.
  - apply cosine_quotient.
  - apply cosine_in_range.
  - apply cosine_in_range.
  - apply cosine_self.
Qed.

(** C9.  Cosine similarity is symmetric, in [simple_rag.py] (where a
    mismatch of dimensions gives [0] both ways) and in [rag_simple.py]
    (where it raises both ways). *)
Theorem cosine_similarity_symmetric :
  forall a b : vec,
    SimpleRag._cosine_similarity a b = SimpleRag._cosine_similarity b a
    /\ RagSimple._cosine_similarity a b = RagSimple._cosine_similarity b a.
Proof.
  intros a b. split; [apply cosine_sym | apply cosine_sym_legacy].
Qed.

(* ================================================================= *)
(** ** Strings *)

Section StringFacts.

#[local] Arguments is_space : simpl never.

Lemma lstrip_head (s : text) :
  lstrip s = [] \/ head_nonspace (lstrip s) = true.
Proof.
  induction s as [|c s IH]; simpl; [now left|].
  destruct (is_space c) eqn:Hc; [exact IH|].
  right. simpl. now rewrite Hc.
Qed.

Lemma lstrip_fixed (s : text) : head_nonspace s = true -> lstrip s = s.
Proof.
  destruct s as [|c s]; simpl; [discriminate|].
  destruct (is_space c); [discriminate|reflexivity].
Qed.

Lemma lstrip_app (a b : text) :
  lstrip (a ++ b)
  = match lstrip a with [] => lstrip b | _ :: _ => lstrip a ++ b end.
Proof.
  induction a as [|c a IH]; simpl; [reflexivity|].
  destruct (is_space c); [exact IH|reflexivity].
Qed.

Lemma rstrip_cons (c : char) (s : text) :
  rstrip (c :: s)
  = match rstrip s with
    | [] => if is_space c then [] else [c]
    | _ :: _ => c :: rstrip s
    end.
Proof.
  unfold rstrip. simpl rev. rewrite lstrip_app.
  destruct (lstrip (rev s)) as [|d r] eqn:Hr.
  - simpl. destruct (is_space c); reflexivity.
  - rewrite rev_app_distr.
    remember (rev (d :: r)) as q eqn:Hq.
    destruct q as [|e q]; [|reflexivity].
    apply (f_equal (@length _)) in Hq.
    rewrite length_rev in Hq. discriminate.
Qed.

Lemma rstrip_keeps_head (s : text) :
  head_nonspace s = true -> head_nonspace (rstrip s) = true.
Proof.
  destruct s as [|c s]; [discriminate|]. simpl. intros Hc.
  rewrite rstrip_cons. destruct (rstrip s).
  - destruct (is_space c) eqn:E; [discriminate|].
    simpl. now rewrite E.
  - simpl. exact Hc.
Qed.

Lemma collapsed_re_sub (x : text) :
  forall r,
    collapsed (re_sub_ws_from r x)
    /\ (r = true ->
        re_sub_ws_from r x = []
        \/ head_nonspace (re_sub_ws_from r x) = true).
Proof.
  induction x as [|c x IH]; intros r; simpl.
  - split; [exact I|now left].
  - destruct (is_space c) eqn:Hc.
    + destruct r.
      * apply IH.
      * destruct (IH true) as [Hcol Hhead]. split; [|discriminate].
        simpl. split; [|exact Hcol].
        intros _. split; [reflexivity|]. now apply Hhead.
    + destruct (IH false) as [Hcol _]. split.
      * simpl. split; [|exact Hcol]. intros H. congruence.
      * intros _. right. simpl. now rewrite Hc.
Qed.

Lemma collapsed_lstrip (s : text) : collapsed s -> collapsed (lstrip s).
Proof.
  induction s as [|c s IH]; simpl; [trivial|].
  intros [Hc Hs]. destruct (is_space c) eqn:E; [now apply IH|].
  simpl. split; [|exact Hs]. intros H. congruence.
Qed.

Lemma well_spaced_rstrip (s : text) :
  collapsed s -> well_spaced (rstrip s).
Proof.
  induction s as [|c s IH]; [intros _; exact I|].
  simpl. intros [Hc Hs]. specialize (IH Hs).
  rewrite rstrip_cons. destruct (rstrip s) as [|d r] eqn:Hr.
  - destruct (is_space c) eqn:E; [exact I|].
    simpl. split; [|exact I]. intros H. congruence.
  - simpl. split; [|exact IH].
    intros E. destruct (Hc E) as [-> [->|Hh]].
    + discriminate.
    + split; [reflexivity|].
      apply rstrip_keeps_head in Hh. rewrite Hr in Hh. exact Hh.
Qed.

(** The shape of the text once it is cleaned. *)
Lemma clean_text_shape (x : text) :
  well_spaced (SimplePDFProcessor.clean_text x)
  /\ (SimplePDFProcessor.clean_text x = []
      \/ head_nonspace (SimplePDFProcessor.clean_text x) = true).
Proof.
  unfold SimplePDFProcessor.clean_text, strip, re_sub_ws.
  destruct (collapsed_re_sub x false) as [Hcol _].
  apply collapsed_lstrip in Hcol. split.
  - now apply well_spaced_rstrip.
  - destruct (lstrip_head (re_sub_ws_from false x)) as [->|H].
    + now left.
    + right. now apply rstrip_keeps_head.
Qed.

End StringFacts.

(* ================================================================= *)
(** ** Sentences *)

Section SentenceFacts.

#[local] Arguments is_space : simpl never.

Lemma head_nonspace_app (a b : text) :
  head_nonspace a = true -> head_nonspace (a ++ b) = true.
Proof. destruct a; [discriminate|trivial]. Qed.

Lemma join_cons (sep p : text) (ps : list text) :
  ps <> [] -> join sep (p :: ps) = p ++ sep ++ join sep ps.
Proof. destruct ps; [congruence|reflexivity]. Qed.

Lemma join_push_char (sep : text) (c : char) (ps : list text) :
  ps <> [] -> join sep (push_char c ps) = c :: join sep ps.
Proof.
  destruct ps as [|p [|q ps]]; [congruence|reflexivity|reflexivity].
Qed.

Lemma push_char_nonempty (c : char) (ps : list text) : push_char c ps <> [].
Proof. destruct ps; discriminate. Qed.

Lemma re_split_nonempty (s : text) :
  forall lb sep, re_split_from lb sep s <> [].
Proof.
  induction s as [|c s IH]; intros lb sep; simpl; [discriminate|].
  destruct (is_space c); [destruct sep; [apply IH|]; destruct lb|];
    try discriminate; apply push_char_nonempty.
Qed.

(** On a character that is not white space the scan forgets how it
    arrived there. *)
Lemma re_split_after_separator (s : text) (lb lb' : bool) :
  head_nonspace s = true ->
  re_split_from lb true s = re_split_from lb' false s.
Proof.
  destruct s as [|c s]; [discriminate|]. simpl.
  destruct (is_space c); [discriminate|reflexivity].
Qed.

(** Joining the sentences with single spaces gives the text back. *)
Lemma split_join (s : text) :
  well_spaced s ->
  forall lb, join [SPACE] (re_split_from lb false s) = s.
Proof.
  induction s as [|c s IH]; intros Hws lb; [reflexivity|].
  destruct Hws as [Hc Hs]. simpl.
  destruct (is_space c) eqn:E.
  - destruct (Hc eq_refl) as [-> Hh]. destruct lb.
    + rewrite (re_split_after_separator s false false Hh).
      rewrite join_cons by apply re_split_nonempty.
      simpl. now rewrite IH.
    + rewrite join_push_char by apply re_split_nonempty. now rewrite IH.
  - rewrite join_push_char by apply re_split_nonempty. now rewrite IH.
Qed.

(** The pieces after the first are tight; the first one is as the start
    of the text allows. *)
Lemma split_pieces (s : text) :
  well_spaced s ->
  forall lb, exists p0 rest,
    re_split_from lb false s = p0 :: rest
    /\ Forall tight rest
    /\ match s with
       | [] => p0 = []
       | c :: _ =>
           if is_space c
           then p0 = [] \/ head_nonspace (rev p0) = true
           else tight p0
       end.
Proof.
  induction s as [|c s IH]; intros Hws lb.
  - exists [], []. repeat split; constructor.
  - destruct Hws as [Hc Hs]. simpl re_split_from.
    destruct (is_space c) eqn:E.
    + destruct (Hc eq_refl) as [-> Hh].
      destruct (IH Hs false) as (p0 & rest & Heq & Hrest & Hp0).
      assert (Hp0' : tight p0).
      { destruct s as [|d s]; [discriminate|]. simpl in Hh.
        destruct (is_space d); [discriminate|exact Hp0]. }
      destruct lb.
      * rewrite (re_split_after_separator s false false Hh), Heq.
        exists [], (p0 :: rest). repeat split; auto.
      * rewrite Heq. exists (SPACE :: p0), rest. repeat split; auto.
        right. simpl. apply head_nonspace_app, Hp0'.
    + destruct (IH Hs (is_terminal c)) as (p0 & rest & Heq & Hrest & Hp0).
      rewrite Heq. exists (c :: p0), rest. repeat split; auto.
      * simpl. now rewrite E.
      * simpl rev.
        assert (Hone : head_nonspace [c] = true) by (simpl; now rewrite E).
        destruct s as [|d s]; [subst p0; exact Hone|].
        destruct (is_space d).
        -- destruct Hp0 as [->|Hp0]; [exact Hone|].
           now apply head_nonspace_app.
        -- now apply head_nonspace_app, Hp0.
Qed.

Lemma split_tight (t : text) :
  well_spaced t -> head_nonspace t = true ->
  Forall tight (re_split_sentences t).
Proof.
  intros Hws Hh. unfold re_split_sentences.
  destruct (split_pieces t Hws false) as (p0 & rest & -> & Hrest & Hp0).
  constructor; [|exact Hrest].
  destruct t as [|c t]; [discriminate|]. simpl in Hh.
  destruct (is_space c); [discriminate|exact Hp0].
Qed.

(** Stripping a pending chunk gives the sentences joined. *)
Lemma strip_tight_space (s : text) :
  tight s -> strip (s ++ [SPACE]) = s.
Proof.
  intros [Hh Hl]. unfold strip.
  rewrite lstrip_fixed by now apply head_nonspace_app.
  unfold rstrip. rewrite rev_app_distr. simpl.
  rewrite lstrip_fixed by exact Hl. apply rev_involutive.
Qed.

Lemma join_snoc (sep : text) (p : list text) (s : text) :
  p <> [] -> join sep (p ++ [s]) = join sep p ++ sep ++ s.
Proof.
  induction p as [|a p IH]; [congruence|]. intros _.
  destruct p as [|b p]; [reflexivity|].
  change ((a :: b :: p) ++ [s]) with (a :: ((b :: p) ++ [s])).
  rewrite join_cons by (simpl; discriminate).
  rewrite IH by discriminate.
  rewrite (join_cons sep a (b :: p)) by discriminate.
  now rewrite <- !app_assoc.
Qed.

Lemma join_app (sep : text) (p q : list text) :
  p <> [] -> q <> [] ->
  join sep (p ++ q) = join sep p ++ sep ++ join sep q.
Proof.
  induction p as [|a p IH]; [congruence|]. intros _ Hq.
  destruct p as [|b p].
  - simpl app. now rewrite join_cons.
  - change ((a :: b :: p) ++ q) with (a :: ((b :: p) ++ q)).
    rewrite join_cons by (simpl; discriminate).
    rewrite IH by (discriminate || assumption).
    rewrite (join_cons sep a (b :: p)) by discriminate.
    now rewrite <- !app_assoc.
Qed.

Lemma concat_nonempty {A} (groups : list (list A)) :
  Forall (fun g => g <> []) groups -> groups <> [] -> concat groups <> [].
Proof.
  intros H Hne. destruct groups as [|g gs]; [congruence|].
  inversion H as [|? ? Hg _]; subst. simpl.
  destruct g; [congruence|discriminate].
Qed.

(** Joining the chunks is joining the sentences. *)
Lemma join_groups (sep : text) (groups : list (list text)) :
  Forall (fun g => g <> []) groups ->
  join sep (map (join sep) groups) = join sep (concat groups).
Proof.
  induction groups as [|g gs IH]; [reflexivity|].
  intros H. inversion H as [|? ? Hg Hgs]; subst.
  destruct gs as [|g' gs].
  - simpl. now rewrite app_nil_r.
  - change (map (join sep) (g :: g' :: gs))
      with (join sep g :: map (join sep) (g' :: gs)).
    rewrite join_cons by discriminate.
    rewrite IH by assumption.
    change (concat (g :: g' :: gs)) with (g ++ concat (g' :: gs)).
    rewrite join_app; [reflexivity|assumption|].
    apply concat_nonempty; [assumption|discriminate].
Qed.

Lemma tight_join (p : list text) :
  p <> [] -> Forall tight p -> tight (join [SPACE] p).
Proof.
  induction p as [|a p IH]; [congruence|]. intros _ H.
  inversion H as [|? ? Ha Hp]; subst.
  destruct p as [|b p]; [exact Ha|].
  rewrite join_cons by discriminate.
  specialize (IH ltac:(discriminate) Hp). destruct Ha as [Ha1 Ha2].
  destruct IH as [I1 I2]. split.
  - now apply head_nonspace_app.
  - rewrite !rev_app_distr. rewrite <- app_assoc.
    now apply head_nonspace_app.
Qed.

End SentenceFacts.

(* ================================================================= *)
(** ** The chunking loop *)

Section ChunkerFacts.

Variable chunk_size : Z.

Let J := join [SPACE].
Let good (g : list text) := g <> [] /\ within chunk_size g.

Lemma len_app {A} (a b : list A) : len (a ++ b) = (len a + len b)%Z.
Proof. unfold len. rewrite length_app. lia. Qed.

Lemma within_single (s : text) : within chunk_size [s].
Proof.
  destruct (Z_le_gt_dec (len s) chunk_size) as [H|H].
  - left. exact H.
  - right. exists s. split; [reflexivity|lia].
Qed.

Lemma pending_text_snoc (p : list text) (s : text) :
  pending_text p ++ s ++ [SPACE] = pending_text (p ++ [s]).
Proof.
  destruct p as [|a p]; [reflexivity|].
  change ((a :: p) ++ [s]) with (a :: (p ++ [s])).
  unfold pending_text.
  destruct (p ++ [s]) as [|b q] eqn:Hq; [now destruct p|].
  rewrite <- Hq.
  change (a :: (p ++ [s])) with ((a :: p) ++ [s]).
  rewrite join_snoc by discriminate.
  now rewrite <- !app_assoc.
Qed.

Lemma pending_text_len (p : list text) (s : text) :
  p <> [] ->
  len (join [SPACE] (p ++ [s])) = (len (pending_text p) + len s)%Z.
Proof.
  intros Hp. rewrite join_snoc by exact Hp.
  destruct p as [|a p]; [congruence|].
  unfold pending_text. rewrite !len_app. lia.
Qed.

Lemma pending_text_truthy (p : list text) :
  truthy (pending_text p) = truthy p.
Proof.
  destruct p as [|a p]; [reflexivity|]. unfold pending_text.
  destruct (join [SPACE] (a :: p)); reflexivity.
Qed.

Lemma strip_pending (p : list text) :
  p <> [] -> Forall tight p -> strip (pending_text p) = J p.
Proof.
  intros Hp Ht. destruct p as [|a p]; [congruence|].
  unfold pending_text. apply strip_tight_space.
  now apply tight_join.
Qed.

(** One turn of the loop keeps the chunks aligned on sentences. *)
Lemma add_sentence_step (groups : list (list text)) (p : list text)
      (s : text) :
  Forall tight p -> tight s ->
  Forall good groups -> (p = [] \/ within chunk_size p) ->
  exists groups' p',
    SimplePDFProcessor.add_sentence chunk_size
      (map J groups, pending_text p) s
    = (map J groups', pending_text p')
    /\ concat groups' ++ p' = (concat groups ++ p) ++ [s]
    /\ Forall good groups'
    /\ Forall tight p'
    /\ (p' = [] \/ within chunk_size p').
Proof.
  intros Hp Hs Hg Hw. unfold SimplePDFProcessor.add_sentence.
  destruct (len (pending_text p) + len s <? chunk_size)%Z eqn:Hlt.
  - apply Z.ltb_lt in Hlt.
    exists groups, (p ++ [s]). repeat split.
    + now rewrite pending_text_snoc.
    + now rewrite app_assoc.
    + exact Hg.
    + apply Forall_app. split; [exact Hp|now constructor].
    + right. destruct p as [|a p].
      * apply within_single.
      * left. rewrite pending_text_len by discriminate. lia.
  - rewrite pending_text_truthy. destruct p as [|a p].
    + exists groups, [s]. repeat split.
      * now rewrite app_nil_r.
      * exact Hg.
      * now constructor.
      * right. apply within_single.
    + simpl truthy. cbv iota.
      exists (groups ++ [a :: p]), [s]. repeat split.
      * rewrite strip_pending by (discriminate || assumption).
        now rewrite map_app.
      * rewrite concat_app. simpl. now rewrite app_nil_r.
      * apply Forall_app. split; [exact Hg|]. constructor; [|constructor].
        split; [discriminate|]. destruct Hw as [Hw|Hw]; [discriminate|exact Hw].
      * now constructor.
      * right. apply within_single.
Qed.

Lemma add_sentence_loop (sentences : list text) :
  Forall tight sentences ->
  forall groups p,
    Forall tight p ->
    Forall good groups -> (p = [] \/ within chunk_size p) ->
    exists groups' p',
      fold_left (SimplePDFProcessor.add_sentence chunk_size) sentences
        (map J groups, pending_text p)
      = (map J groups', pending_text p')
      /\ concat groups' ++ p' = (concat groups ++ p) ++ sentences
      /\ Forall good groups'
      /\ Forall tight p'
      /\ (p' = [] \/ within chunk_size p').
Proof.
  induction sentences as [|s ss IH]; intros Hss groups p Hp Hg Hw.
  - exists groups, p. rewrite app_nil_r. auto.
  - inversion Hss as [|? ? Hs Hss']; subst.
    destruct (@add_sentence_step groups p s Hp Hs Hg Hw)
      as (g1 & p1 & Hstep & Hcat & Hg1 & Hp1 & Hw1).
    destruct (IH Hss' g1 p1 Hp1 Hg1 Hw1)
      as (g2 & p2 & Hloop & Hcat2 & Hg2 & Hp2 & Hw2).
    exists g2, p2. cbn [fold_left]. rewrite Hstep, Hloop.
    repeat split; auto.
    rewrite Hcat2, Hcat, <- app_assoc. reflexivity.
Qed.

(** The chunks are the sentences, grouped in order and joined. *)
Lemma chunk_sentences_groups (sentences : list text) :
  Forall tight sentences ->
  exists groups,
    concat groups = sentences
    /\ Forall good groups
    /\ SimplePDFProcessor.chunk_sentences chunk_size sentences
       = map J groups.
Proof.
  intros Hss.
  destruct (@add_sentence_loop sentences Hss [] [])
    as (groups & p & Hloop & Hcat & Hg & Hp & Hw);
    [constructor|constructor|now left|].
  unfold SimplePDFProcessor.chunk_sentences.
  change (@nil text, @nil char) with (map J [], pending_text []).
  rewrite Hloop, pending_text_truthy. simpl in Hcat.
  destruct p as [|a p].
  - exists groups. rewrite app_nil_r in Hcat. auto.
  - exists (groups ++ [a :: p]). simpl truthy. cbv iota. repeat split.
    + rewrite concat_app. simpl. now rewrite app_nil_r.
    + apply Forall_app. split; [exact Hg|]. constructor; [|constructor].
      split; [discriminate|]. destruct Hw as [Hw|Hw]; [discriminate|exact Hw].
    + rewrite strip_pending by (discriminate || assumption).
      now rewrite map_app.
Qed.

(** The text that cleans to nothing: one sentence, the empty one, and one
    chunk, the empty one. *)
Lemma chunk_sentences_empty_text :
  SimplePDFProcessor.chunk_sentences chunk_size (re_split_sentences [])
  = [[]].
Proof.
  unfold SimplePDFProcessor.chunk_sentences, re_split_sentences.
  simpl. destruct (len [] <? chunk_size)%Z; reflexivity.
Qed.

End ChunkerFacts.

(* ================================================================= *)
(** ** The stable descending sort *)

Section SortFacts.

Context {A : Type}.

Lemma Rltb_true (x y : R) : Rltb x y = true <-> (x < y)%R.
Proof. unfold Rltb. destruct (Rlt_dec x y); split; congruence. Qed.

Lemma Rltb_false (x y : R) : Rltb x y = false <-> (y <= x)%R.
Proof.
  unfold Rltb. destruct (Rlt_dec x y); split; try congruence; lra.
Qed.

Lemma insert_desc_perm (x : A * R) (l : list (A * R)) :
  Permutation (insert_desc x l) (x :: l).
Proof.
  induction l as [|y l IH]; simpl; [reflexivity|].
  destruct (Rltb (snd x) (snd y)); [|reflexivity].
  rewrite IH. apply perm_swap.
Qed.

Lemma sort_desc_perm (l : list (A * R)) : Permutation (sort_desc l) l.
Proof.
  induction l as [|x l IH]; simpl; [reflexivity|].
  rewrite insert_desc_perm. now constructor.
Qed.

Lemma sort_desc_length (l : list (A * R)) :
  length (sort_desc l) = length l.
Proof. apply Permutation_length, sort_desc_perm. Qed.

Lemma firstn_sorted (R : A -> A -> Prop) (l : list A) :
  StronglySorted R l -> forall n, StronglySorted R (firstn n l).
Proof.
  induction 1 as [|a l Hl IH Ha]; intros [|n]; simpl; try constructor.
  - apply IH.
  - rewrite Forall_forall in *. intros x Hx. apply Ha.
    rewrite <- (firstn_skipn n l). apply in_or_app. now left.
Qed.

Lemma slice_to_sorted (R : A -> A -> Prop) (k : Z) (l : list A) :
  StronglySorted R l -> StronglySorted R (slice_to k l).
Proof.
  intros H. unfold slice_to. destruct (k <? 0)%Z; now apply firstn_sorted.
Qed.

Lemma slice_to_incl (k : Z) (l : list A) (x : A) :
  In x (slice_to k l) -> In x l.
Proof.
  unfold slice_to. destruct (k <? 0)%Z; intros H;
    match type of H with
    | In _ (firstn ?n _) =>
        rewrite <- (firstn_skipn n l); apply in_or_app; now left
    end.
Qed.

Lemma slice_to_length (k : Z) (l : list A) :
  (0 <= k)%Z -> len (slice_to k l) = Z.min k (len l).
Proof.
  intros Hk. unfold slice_to, len.
  destruct (k <? 0)%Z eqn:E; [apply Z.ltb_lt in E; lia|].
  rewrite length_firstn. lia.
Qed.

End SortFacts.

Section RankingFacts.

Lemma ranks_before_le (y z : nat * R) :
  ranks_before y z -> (snd z <= snd y)%R.
Proof. intros [H|[H _]]; lra. Qed.

Lemma ranks_before_intro (x z : nat * R) :
  (snd z <= snd x)%R -> fst x < fst z -> ranks_before x z.
Proof.
  intros Hle Hlt. unfold ranks_before.
  destruct (Rle_lt_or_eq_dec _ _ Hle) as [H|H]; [now left|right].
  split; [now symmetry|exact Hlt].
Qed.

(** [x] is earlier in the list than every element of [l], which is
    ranked: after the insertion the list is ranked. *)
Lemma insert_desc_sorted (x : nat * R) (l : list (nat * R)) :
  StronglySorted ranks_before l ->
  Forall (fun y => fst x < fst y) l ->
  StronglySorted ranks_before (insert_desc x l).
Proof.
  induction 1 as [|y l Hl IH Hy]; intros Hx; simpl.
  - repeat constructor.
  - inversion Hx as [|? ? Hxy Hxl]; subst.
    destruct (Rltb (snd x) (snd y)) eqn:E.
    + apply Rltb_true in E. constructor; [now apply IH|].
      rewrite (insert_desc_perm x l). constructor; [|exact Hy].
      now left.
    + apply Rltb_false in E. constructor.
      * now constructor.
      * constructor; [now apply ranks_before_intro|].
        rewrite Forall_forall in *. intros z Hz.
        apply ranks_before_intro; [|now apply Hxl].
        pose proof (ranks_before_le _ _ (Hy z Hz)). lra.
Qed.

(** Sorting a list whose indices increase ranks it. *)
Lemma sort_desc_sorted (l : list (nat * R)) :
  StronglySorted (fun x y => fst x < fst y) l ->
  StronglySorted ranks_before (sort_desc l).
Proof.
  induction 1 as [|x l Hl IH Hx]; simpl; [constructor|].
  apply insert_desc_sorted; [exact IH|].
  now rewrite (sort_desc_perm l).
Qed.

(** The ranking is the only ranked arrangement of the scores: whatever
    the order of the computation, the result is the same. *)
Lemma ranked_unique (l1 l2 : list (nat * R)) :
  StronglySorted ranks_before l1 -> StronglySorted ranks_before l2 ->
  Permutation l1 l2 -> l1 = l2.
Proof.
  intros H1. revert l2.
  induction H1 as [|x l1 Hl1 IH Hx]; intros l2 H2 HP.
  - now apply Permutation_nil in HP.
  - destruct H2 as [|y l2 Hl2 Hy].
    + symmetry in HP. now apply Permutation_nil in HP.
    + assert (Hxy : x = y).
      { assert (In x (y :: l2))
          by (eapply Permutation_in; [exact HP|now left]).
        assert (In y (x :: l1))
          by (eapply Permutation_in; [symmetry; exact HP|now left]).
        destruct H as [H|H]; [now symmetry|].
        destruct H0 as [H0|H0]; [exact H0|].
        rewrite Forall_forall in Hx, Hy.
        pose proof (Hx y H0) as [A1|[A1 A2]];
          pose proof (Hy x H) as [B1|[B1 B2]]; try lra; lia. }
      subst y. f_equal. apply IH; [exact Hl2|].
      now apply Permutation_cons_inv in HP.
Qed.

End RankingFacts.

(* ================================================================= *)
(** ** The methods, unfolded *)

Section MethodFacts.

Variable E : Env.

Lemma search_eq (q : text) (k : Z) (m : Machine E) :
  SimpleRag.search E q k m
  = if negb (truthy (embeddings (self m))) then ([], m)
    else
      let reply :=
        co_embed E [q] Config.EMBEDDING_MODEL (str "search_query")
                 (world m) in
      (match (try r <- fst reply; SimpleRag.ranking (self m) r k) with
       | Returned found => found
       | Raised _ => []
       end,
       Build_Machine (self m) (snd reply)
         (trace m ++ [CallEmbed [q] Config.EMBEDDING_MODEL
                                (str "search_query")])).
Proof.
  unfold SimpleRag.search, bind, get_self, ret, embed.
  destruct (negb (truthy (embeddings (self m)))); [reflexivity|].
  destruct (co_embed E [q] Config.EMBEDDING_MODEL (str "search_query")
                     (world m)); reflexivity.
Qed.

Lemma search_self (q : text) (k : Z) (m : Machine E) :
  self (snd (SimpleRag.search E q k m)) = self m.
Proof.
  rewrite search_eq.
  destruct (negb (truthy (embeddings (self m)))); reflexivity.
Qed.

Lemma answer_question_eq (q : text) (m : Machine E) :
  SimpleRag.answer_question E q m
  = if negb (truthy (documents (self m))) then (no_documents_result q, m)
    else
      let found := SimpleRag.search E q Config.TOP_K m in
      if negb (truthy (fst found)) then (no_results_result q, snd found)
      else
        let message :=
          SimpleRag.chat_message (SimpleRag.context_of E (fst found)) q in
        let reply :=
          co_chat E message Config.GENERATION_MODEL (world (snd found)) in
        (match fst reply with
         | Returned response_text =>
             {| question := q; answer := strip response_text;
                sources := fst found; status := success;
                model_used := Some Config.GENERATION_MODEL |}
         | Raised _ =>
             {| question := q;
                answer := SimpleRag.fallback_answer_of E (fst found);
                sources := fst found; status := fallback;
                model_used := None |}
         end,
         Build_Machine (self (snd found)) (snd reply)
           (trace (snd found)
            ++ [CallChat message Config.GENERATION_MODEL])).
Proof.
  unfold SimpleRag.answer_question, bind at 1, get_self.
  destruct (negb (truthy (documents (self m)))); [reflexivity|].
  unfold bind at 1.
  destruct (SimpleRag.search E q Config.TOP_K m) as [found m1]. simpl.
  destruct (negb (truthy found)); [reflexivity|].
  unfold bind, chat, ret.
  destruct (co_chat E _ Config.GENERATION_MODEL (world m1)) as [[t|e] w];
    reflexivity.
Qed.

Lemma answer_question_self (q : text) (m : Machine E) :
  self (snd (SimpleRag.answer_question E q m)) = self m.
Proof.
  rewrite answer_question_eq.
  destruct (negb (truthy (documents (self m)))); [reflexivity|].
  cbv zeta.
  destruct (negb (truthy (fst (SimpleRag.search E q Config.TOP_K m))));
    simpl; apply search_self.
Qed.

Lemma process_document_eq (pdf_path : text) (m : Machine E) :
  SimpleRag.process_document E pdf_path m
  = if negb (path_exists E pdf_path (world m)) then (false, m)
    else
      let chunks :=
        SimplePDFProcessor.load_pdf Config.CHUNK_SIZE
          (read_pages E pdf_path (world m)) in
      if negb (0 <? len chunks)%Z then (false, m)
      else
        let reply :=
          co_embed E chunks Config.EMBEDDING_MODEL (str "search_document")
                   (world m) in
        let called :=
          trace m ++ [CallEmbed chunks Config.EMBEDDING_MODEL
                                (str "search_document")] in
        match fst reply with
        | Returned response_embeddings =>
            (true,
             Build_Machine (ingested pdf_path chunks response_embeddings)
                           (snd reply) called)
        | Raised _ => (false, Build_Machine (self m) (snd reply) called)
        end.
Proof.
  unfold SimpleRag.process_document, bind at 1, ask.
  destruct (negb (path_exists E pdf_path (world m))); [reflexivity|].
  unfold bind at 1, SimplePDFProcessor.process_pdf.
  destruct (negb (0 <? len _)%Z); [reflexivity|].
  unfold bind at 1, embed. cbv zeta.
  destruct (co_embed E _ Config.EMBEDDING_MODEL (str "search_document")
                     (world m)) as [[embs|e] w]; reflexivity.
Qed.

End MethodFacts.

(* ================================================================= *)
(** ** The store along a session *)

Section StoreFacts.

Variable E : Env.

Lemma aligned_init :
  aligned {| documents := []; embeddings := []; metadata := [] |}.
Proof.
  split; [reflexivity|]. intros [|i] md H; discriminate.
Qed.

Lemma aligned_ingested (pdf_path : text) (chunks : list text)
      (embs : list vec) :
  aligned (ingested pdf_path chunks embs).
Proof.
  split; simpl.
  - now rewrite length_map, length_seq.
  - intros i md H. rewrite nth_error_map, nth_error_seq in H.
    destruct (i <? length chunks)%nat; [|discriminate].
    simpl in H. injection H as <-. reflexivity.
Qed.

(** An ingestion either fails and keeps the store, or replaces it. *)
Lemma process_document_cases (pdf_path : text) (m : Machine E) :
  (fst (SimpleRag.process_document E pdf_path m) = false
   /\ self (snd (SimpleRag.process_document E pdf_path m)) = self m)
  \/ (exists chunks embs,
         fst (SimpleRag.process_document E pdf_path m) = true
         /\ chunks <> []
         /\ SimplePDFProcessor.load_pdf Config.CHUNK_SIZE
              (read_pages E pdf_path (world m)) = chunks
         /\ fst (co_embed E chunks Config.EMBEDDING_MODEL
                          (str "search_document") (world m))
            = Returned embs
         /\ self (snd (SimpleRag.process_document E pdf_path m))
            = ingested pdf_path chunks embs).
Proof.
  rewrite process_document_eq.
  destruct (negb (path_exists E pdf_path (world m))); [now left|].
  cbv zeta.
  destruct (negb (0 <? len _)%Z) eqn:Hlen; [now left|].
  destruct (fst (co_embed E _ _ _ (world m))) as [embs|e] eqn:Hembed;
    [|now left].
  right. eexists _, embs. repeat split; try reflexivity; try eassumption.
  intros Hnil. rewrite Hnil in Hlen. discriminate.
Qed.

Lemma reachable_aligned (m : Machine E) :
  reachable E m -> aligned (self m).
Proof.
  induction 1 as [w|m w _ IH|m path _ IH|m q k _ IH|m q _ IH].
  - apply aligned_init.
  - exact IH.
  - destruct (process_document_cases path m)
      as [[_ ->]|(chunks & embs & _ & _ & _ & _ & ->)];
      [exact IH|apply aligned_ingested].
  - now rewrite search_self.
  - now rewrite answer_question_self.
Qed.

Lemma never_ingested_store (m : Machine E) :
  never_ingested E m ->
  self m = {| documents := []; embeddings := []; metadata := [] |}.
Proof.
  induction 1 as [w|m w _ IH|m path _ IH Hfail|m q k _ IH|m q _ IH].
  - reflexivity.
  - exact IH.
  - destruct (process_document_cases path m)
      as [[_ ->]|(chunks & embs & Hok & _)]; [exact IH|congruence].
  - now rewrite search_self.
  - now rewrite answer_question_self.
Qed.

End StoreFacts.

(* ================================================================= *)
(** ** The ranking *)

Section SearchFacts.

Lemma enumerate_cons {A} (start : nat) (x : A) (l : list A) :
  enumerate start (x :: l) = (start, x) :: enumerate (S start) l.
Proof. reflexivity. Qed.

Lemma enumerate_length {A} (start : nat) (l : list A) :
  length (enumerate start l) = length l.
Proof.
  unfold enumerate. rewrite length_combine, length_seq. lia.
Qed.

Lemma enumerate_In {A} (l : list A) :
  forall start i x,
    In (i, x) (enumerate start l) ->
    start <= i /\ nth_error l (i - start) = Some x.
Proof.
  induction l as [|y l IH]; intros start i x H; [contradiction|].
  rewrite enumerate_cons in H. destruct H as [H|H].
  - injection H as <- <-. rewrite Nat.sub_diag. split; [lia|reflexivity].
  - apply IH in H. destruct H as [Hle Hnth]. split; [lia|].
    replace (i - start) with (S (i - S start)) by lia. exact Hnth.
Qed.

Lemma similarities_length (q : vec) (embs : list vec) :
  length (SimpleRag.similarities q embs) = length embs.
Proof.
  unfold SimpleRag.similarities.
  now rewrite length_map, enumerate_length.
Qed.

(** Every entry is the cosine similarity of the query with the stored
    embedding of that index. *)
Lemma similarities_In (q : vec) (embs : list vec) (i : nat) (sc : R) :
  In (i, sc) (SimpleRag.similarities q embs) ->
  exists emb,
    nth_error embs i = Some emb
    /\ sc = SimpleRag._cosine_similarity q emb.
Proof.
  unfold SimpleRag.similarities. intros H.
  apply in_map_iff in H. destruct H as ([j emb] & Heq & Hin).
  simpl in Heq. injection Heq as <- <-.
  apply enumerate_In in Hin. destruct Hin as [_ Hnth].
  rewrite Nat.sub_0_r in Hnth. now exists emb.
Qed.

Lemma similarities_increasing (q : vec) (embs : list vec) :
  StronglySorted (fun x y : nat * R => fst x < fst y)
                 (SimpleRag.similarities q embs).
Proof.
  unfold SimpleRag.similarities. generalize 0 as start.
  induction embs as [|e embs IH]; intros start; [constructor|].
  rewrite enumerate_cons. simpl. constructor; [apply IH|].
  rewrite Forall_forall. intros [i sc] Hin.
  apply in_map_iff in Hin. destruct Hin as ([j emb] & Heq & Hin).
  simpl in Heq. injection Heq as <- <-.
  apply enumerate_In in Hin. simpl. lia.
Qed.

(** The ranking that [search] sorts its way to. *)
Lemma ranking_sorted (q : vec) (embs : list vec) :
  StronglySorted ranks_before (sort_desc (SimpleRag.similarities q embs)).
Proof. apply sort_desc_sorted, similarities_increasing. Qed.

Lemma results_spec (s : Store) (top : list (nat * (nat * R))) :
  forall hs,
    SimpleRag.results s top = Returned hs ->
    Forall2 (hit_matches s) top hs.
Proof.
  induction top as [|[i [d sc]] top IH]; intros hs H; simpl in H.
  - injection H as <-. constructor.
  - unfold index, and_then in H.
    destruct (nth_error (documents s) d) as [doc|] eqn:Hd; [|discriminate].
    destruct (nth_error (metadata s) d) as [md|] eqn:Hm; [|discriminate].
    destruct (SimpleRag.results s top) as [tail|]; [|discriminate].
    injection H as <-. constructor; [|now apply IH].
    repeat split; assumption.
Qed.

Lemma results_total (s : Store) (top : list (nat * (nat * R))) :
  Forall (fun t => fst (snd t) < length (documents s)
                   /\ fst (snd t) < length (metadata s)) top ->
  exists hs, SimpleRag.results s top = Returned hs.
Proof.
  induction 1 as [|[i [d sc]] top [Hd Hm] _ [tail IH]]; simpl.
  - now exists [].
  - simpl in Hd, Hm. unfold index, and_then.
    destruct (nth_error (documents s) d) eqn:Ed;
      [|apply nth_error_None in Ed; lia].
    destruct (nth_error (metadata s) d) eqn:Em;
      [|apply nth_error_None in Em; lia].
    rewrite IH. eexists. reflexivity.
Qed.

Lemma Forall2_ids (s : Store) (l : list (nat * R)) :
  forall start hs,
    Forall2 (hit_matches s) (enumerate start l) hs ->
    map hit_id hs = seq (start + 1) (length hs).
Proof.
  induction l as [|x l IH]; intros start hs H.
  - inversion H. reflexivity.
  - rewrite enumerate_cons in H.
    inversion H as [|t h top hs' Ht Hrest]; subst. simpl.
    destruct Ht as [-> _]. simpl. f_equal.
    replace (S (start + 1)) with (S start + 1) by lia. now apply IH.
Qed.

(** The results follow the order of the ranking. *)
Lemma Forall2_sorted (s : Store) (l : list (nat * R)) :
  aligned s ->
  StronglySorted ranks_before l ->
  forall start hs,
    Forall2 (hit_matches s) (enumerate start l) hs ->
    StronglySorted hit_before hs.
Proof.
  intros [_ Hid]. induction 1 as [|x l Hl IH Hx]; intros start hs H.
  - inversion H. constructor.
  - rewrite enumerate_cons in H.
    inversion H as [|t h top hs' Ht Hrest]; subst.
    constructor; [now apply (IH (S start))|].
    destruct Ht as (_ & Hsc & _ & Hmd). simpl in Hsc, Hmd.
    apply Hid in Hmd.
    clear H IH Hl. revert hs' Hrest. generalize (S start) as k.
    induction l as [|y l IHl]; intros k hs' Hrest.
    + inversion Hrest. constructor.
    + rewrite enumerate_cons in Hrest.
      inversion Hrest as [|t' h' top' hs'' Ht' Hrest']; subst.
      inversion Hx as [|? ? Hxy Hxl]; subst.
      constructor; [|now apply (IHl Hxl (S k))].
      destruct Ht' as (_ & Hsc' & _ & Hmd'). simpl in Hsc', Hmd'.
      apply Hid in Hmd'. unfold hit_before.
      rewrite Hsc, Hsc', Hmd, Hmd'. exact Hxy.
Qed.

End SearchFacts.

Section SearchCases.

Variable E : Env.

Lemma Forall2_In_r {A B} (P : A -> B -> Prop) (l : list A) (l' : list B) :
  Forall2 P l l' -> forall y, In y l' -> exists x, In x l /\ P x y.
Proof.
  induction 1 as [|x y l l' Hxy _ IH]; intros z Hz; [contradiction|].
  destruct Hz as [<-|Hz].
  - exists x. split; [now left|exact Hxy].
  - destruct (IH z Hz) as (x' & Hin & Hp). exists x'.
    split; [now right|exact Hp].
Qed.

(** Either [search] finds nothing, or the provider gave a query embedding
    and every entry of the cut ranking became a result. *)
Lemma search_cases (q : text) (k : Z) (m : Machine E) :
  fst (SimpleRag.search E q k m) = []
  \/ exists qe rest,
      fst (co_embed E [q] Config.EMBEDDING_MODEL (str "search_query")
                    (world m)) = Returned (qe :: rest)
      /\ Forall2 (hit_matches (self m))
           (enumerate 0
              (slice_to k
                 (sort_desc
                    (SimpleRag.similarities qe (embeddings (self m))))))
           (fst (SimpleRag.search E q k m)).
Proof.
  rewrite search_eq.
  destruct (negb (truthy (embeddings (self m)))); [now left|].
  cbv zeta. simpl fst.
  destruct (fst (co_embed E [q] Config.EMBEDDING_MODEL (str "search_query")
                          (world m))) as [[|qe rest]|e];
    simpl; try now left.
  unfold SimpleRag.ranking, index. simpl.
  destruct (SimpleRag.results _ _) as [hs|e] eqn:Hres; [|now left].
  right. exists qe, rest. split; [reflexivity|].
  now apply results_spec.
Qed.

End SearchCases.

(** C2, as the code has it.  With nothing stored [search] returns the empty
    list and calls nobody.  When the provider returns a query embedding and
    every stored embedding has its chunk and its metadata, [search] returns
    exactly [min(top_k, n)] results for [top_k >= 0].  When the provider
    raises, [search] returns the empty list. *)
Theorem search_result_count :
  forall (E : Env) (m : Machine E) (query : text) (top_k : Z),
    (0 <= top_k)%Z ->
    let reply :=
      fst (co_embed E [query] Config.EMBEDDING_MODEL (str "search_query")
                    (world m)) in
    (embeddings (self m) = [] ->
     SimpleRag.search E query top_k m = ([], m))
    /\ (forall qe rest,
           reply = Returned (qe :: rest) ->
           length (embeddings (self m)) <= length (documents (self m)) ->
           length (embeddings (self m)) <= length (metadata (self m)) ->
           len (fst (SimpleRag.search E query top_k m))
           = Z.min top_k (len (embeddings (self m))))
    /\ (forall e,
           reply = Raised e ->
           fst (SimpleRag.search E query top_k m) = []).
Proof.
  intros E m query top_k Hk reply. repeat split.
  - intros Hnil. rewrite search_eq, Hnil. reflexivity.
  - intros qe rest Hreply Hdocs Hmeta. rewrite search_eq.
    destruct (truthy (embeddings (self m))) eqn:Htruthy.
    + simpl negb. cbv iota zeta. simpl fst. fold reply. rewrite Hreply.
      unfold SimpleRag.ranking, index. simpl nth_error.
      unfold and_then.
      set (top := slice_to top_k
                    (sort_desc
                       (SimpleRag.similarities qe (embeddings (self m))))).
      destruct (results_total (self m) (enumerate 0 top)) as [hs Hhs].
      { rewrite Forall_forall. intros [i [d sc]] Hin. simpl.
        apply enumerate_In in Hin. destruct Hin as [_ Hin].
        apply nth_error_In, slice_to_incl in Hin.
        apply (Permutation_in _ (sort_desc_perm _)) in Hin.
        apply similarities_In in Hin. destruct Hin as (emb & Hemb & _).
        assert (d < length (embeddings (self m)))
          by (apply nth_error_Some; congruence).
        lia. }
      rewrite Hhs. apply results_spec, Forall2_length in Hhs.
      unfold len at 1. rewrite <- Hhs, enumerate_length.
      fold (len top). unfold top. rewrite slice_to_length by exact Hk.
      unfold len. now rewrite sort_desc_length, similarities_length.
    + destruct (embeddings (self m)); [|discriminate].
      simpl. unfold len. simpl. lia.
  - intros e Hreply. rewrite search_eq.
    destruct (negb (truthy (embeddings (self m)))); [reflexivity|].
    cbv zeta. simpl fst. fold reply. rewrite Hreply. reflexivity.
Qed.

Lemma search_result_count_witness :
  (0 <= 3)%Z
  /\ len (fst (SimpleRag.search Scenario.env_ok Scenario.QUESTION 3
                 (Scenario.loaded Scenario.env_ok true)))
     = Z.min 3 (len (embeddings
                       (self (Scenario.loaded Scenario.env_ok true)))).
Proof.
  split; [lia|].
  refine (proj1 (proj2 (search_result_count Scenario.env_ok
                          (Scenario.loaded Scenario.env_ok true)
                          Scenario.QUESTION 3 _)) [1%R] [] _ _ _).
  - lia.
  - reflexivity.
  - vm_compute. lia.
  - vm_compute. lia.
Defined.

(** C2 as stated fails: one embedding is stored, [top_k] is 1, the provider
    is down, and [search] returns no result where [min(1, 1) = 1] are
    announced. *)
Lemma search_count_counterexample :
  reachable Scenario.env_ok Scenario.orphaned
  /\ len (embeddings (self Scenario.orphaned)) = 1%Z
  /\ fst (SimpleRag.search Scenario.env_ok Scenario.QUESTION 1
            Scenario.orphaned) = []
  /\ len (fst (SimpleRag.search Scenario.env_ok Scenario.QUESTION 1
                 Scenario.orphaned))
     <> Z.min 1 (len (embeddings (self Scenario.orphaned))).
Proof.
  split; [|split; [|split]].
  - apply (reach_world Scenario.env_ok). apply reach_process, reach_init.
  - reflexivity.
  - reflexivity.
  - vm_compute. discriminate.
Qed.

(* ================================================================= *)
(** ** Ingestion *)

(** C4, as the code has it.  [process_document] checks nothing about what
    the provider returns.  It fails exactly when the file is missing, when
    the chunker gives no chunk or when the embedding call raises, and then
    the store is unchanged.  When it succeeds the store is replaced as a
    whole: the chunks, the embeddings as returned, and one metadata entry
    per chunk. *)
Theorem process_document_outcomes :
  forall (E : Env) (m : Machine E) (pdf_path : text),
    let run := SimpleRag.process_document E pdf_path m in
    let chunks :=
      SimplePDFProcessor.load_pdf Config.CHUNK_SIZE
        (read_pages E pdf_path (world m)) in
    let reply :=
      fst (co_embed E chunks Config.EMBEDDING_MODEL (str "search_document")
                    (world m)) in
    (fst run = false -> self (snd run) = self m)
    /\ (fst run = true ->
        exists embs,
          reply = Returned embs
          /\ self (snd run) = ingested pdf_path chunks embs)
    /\ (fst run = false <->
        path_exists E pdf_path (world m) = false
        \/ chunks = []
        \/ exists e, reply = Raised e).
Proof.
  intros E m pdf_path run chunks reply. unfold run.
  rewrite process_document_eq. fold chunks. cbv zeta. fold reply.
  destruct (path_exists E pdf_path (world m)); simpl.
  2: { repeat split; auto; discriminate. }
  destruct chunks as [|c cs] eqn:Hc; simpl.
  { repeat split; auto; discriminate. }
  destruct reply as [embs|e]; simpl.
  - repeat split; try discriminate.
    + intros _. now exists embs.
    + intros [H|[H|[e H]]]; discriminate.
  - repeat split; try discriminate; auto.
    intros _. right. right. now exists e.
Qed.

Lemma process_document_outcomes_witness :
  fst (SimpleRag.process_document Scenario.env_ok Scenario.PATH
         (Scenario.orphaned)) = false
  /\ self (snd (SimpleRag.process_document Scenario.env_ok Scenario.PATH
                  (Scenario.orphaned)))
     = self Scenario.orphaned.
Proof.
  split; [reflexivity|].
  apply (proj1 (process_document_outcomes Scenario.env_ok Scenario.orphaned
                  Scenario.PATH)).
  reflexivity.
Defined.

(** C4 as stated fails: the provider returns no embedding for one chunk,
    and the ingestion succeeds with one chunk, one metadata entry and no
    embedding stored. *)
Lemma replace_validation_counterexample :
  fst (SimpleRag.process_document Scenario.env_short Scenario.PATH
         (init (E := Scenario.env_short) true)) = true
  /\ length (documents (self (Scenario.loaded Scenario.env_short true))) = 1
  /\ length (metadata (self (Scenario.loaded Scenario.env_short true))) = 1
  /\ length (embeddings (self (Scenario.loaded Scenario.env_short true))) = 0.
Proof. repeat split; reflexivity. Qed.

(** C3, what the code does.  A text that is empty once cleaned still gives
    one sentence, the empty one, and the loop turns it into one chunk, the
    empty string: [process_pdf] reports success, and when the provider
    answers, the ingestion succeeds and replaces the store by that one
    empty chunk. *)
Theorem blank_document_is_ingested :
  forall (E : Env) (m : Machine E) (pdf_path : text) (pages : list text)
         (embs : list vec),
    path_exists E pdf_path (world m) = true ->
    read_pages E pdf_path (world m) = Returned pages ->
    SimplePDFProcessor.clean_text (SimplePDFProcessor.pages_text pages) = [] ->
    fst (co_embed E [[]] Config.EMBEDDING_MODEL (str "search_document")
                  (world m)) = Returned embs ->
    (forall chunk_size,
        SimplePDFProcessor.process_pdf chunk_size (Returned pages)
        = ([[]], true))
    /\ fst (SimpleRag.process_document E pdf_path m) = true
    /\ self (snd (SimpleRag.process_document E pdf_path m))
       = ingested pdf_path [[]] embs.
Proof.
  intros E m pdf_path pages embs Hpath Hpages Hclean Hembed.
  assert (Hchunks : forall chunk_size,
             SimplePDFProcessor.load_pdf chunk_size (Returned pages) = [[]]).
  { intros chunk_size. unfold SimplePDFProcessor.load_pdf,
      SimplePDFProcessor.chunk_text.
    rewrite Hclean. apply chunk_sentences_empty_text. }
  split.
  - intros chunk_size. unfold SimplePDFProcessor.process_pdf.
    now rewrite Hchunks.
  - rewrite process_document_eq, Hpath, Hpages, Hchunks. simpl negb.
    cbv iota zeta. rewrite Hembed. split; reflexivity.
Qed.

Lemma blank_document_is_ingested_witness :
  fst (SimpleRag.process_document Scenario.env_blank Scenario.PATH
         (init (E := Scenario.env_blank) true)) = true
  /\ documents
       (self (snd (SimpleRag.process_document Scenario.env_blank
                     Scenario.PATH (init (E := Scenario.env_blank) true))))
     = [[]].
Proof.
  destruct (blank_document_is_ingested Scenario.env_blank
              (init (E := Scenario.env_blank) true) Scenario.PATH
              [[]] [[1%R]])
    as (_ & Hok & Hstore); try reflexivity.
  split; [exact Hok|]. rewrite Hstore. reflexivity.
Defined.

(* ================================================================= *)
(** ** Answering *)

Section AnswerFacts.

Variable E : Env.

Lemma fallback_step_app (acc : text) (p : nat * Hit) :
  SimpleRag.fallback_step E acc p = acc ++ fallback_block E p.
Proof.
  destruct p as [i chunk].
  unfold SimpleRag.fallback_step, fallback_block, slice_to.
  cbn [fst snd]. change (200 <? 0)%Z with false.
  change (Z.to_nat 200) with 200. cbv iota.
  rewrite <- !app_assoc. reflexivity.
Qed.

Lemma fallback_loop (l : list (nat * Hit)) :
  forall acc,
    fold_left (SimpleRag.fallback_step E) l acc
    = acc ++ concat (map (fallback_block E) l).
Proof.
  induction l as [|p l IH]; intros acc; simpl.
  - now rewrite app_nil_r.
  - now rewrite IH, fallback_step_app, <- app_assoc.
Qed.

(** The fallback answer is the header followed by one block for each of
    the first three results. *)
Lemma fallback_answer_blocks (found : list Hit) :
  SimpleRag.fallback_answer_of E found
  = FALLBACK_HEADER
    ++ concat (map (fallback_block E) (enumerate 1 (firstn 3 found))).
Proof.
  unfold SimpleRag.fallback_answer_of. rewrite fallback_loop.
  reflexivity.
Qed.

Lemma truthy_nonempty {A} (l : list A) : truthy l = true <-> l <> [].
Proof. destruct l; simpl; split; congruence. Qed.

End AnswerFacts.

(** In [simple_rag.py], with documents stored and a non-empty ranking, a
    generation call that raises gives status [fallback] whatever the
    exception is: the sources are the whole ranking, and the answer is
    the fixed header
    followed, for each of the first three results and nothing else, by its
    position, its score as a percentage with one decimal, and the first
    200 characters of its text. *)
Lemma simple_rag_falls_back :
  forall (E : Env) (m : Machine E) (question_ : text) (e : text),
    documents (self m) <> [] ->
    let found := SimpleRag.search E question_ Config.TOP_K m in
    fst found <> [] ->
    fst (co_chat E
           (SimpleRag.chat_message (SimpleRag.context_of E (fst found))
                                   question_)
           Config.GENERATION_MODEL (world (snd found))) = Raised e ->
    let result := fst (SimpleRag.answer_question E question_ m) in
    status result = fallback
    /\ question result = question_
    /\ sources result = fst found
    /\ answer result
       = FALLBACK_HEADER
         ++ concat (map (fallback_block E)
                        (enumerate 1 (firstn 3 (fst found))))
    /\ length (firstn 3 (fst found)) = Nat.min 3 (length (fst found)).
Proof.
  intros E m question_ e Hdocs found Hfound Hchat result.
  unfold result. rewrite answer_question_eq.
  apply truthy_nonempty in Hdocs, Hfound. rewrite Hdocs. simpl negb.
  cbv iota zeta. fold found. rewrite Hfound. simpl negb. cbv iota.
  rewrite Hchat. cbn [fst status question sources answer].
  repeat split; [apply fallback_answer_blocks|apply length_firstn].
Qed.

(** In a session of [simple_rag.py] where no ingestion has succeeded,
    [answer_question] returns status [no_documents], no source and the
    fixed explanation,
    and the state is the same afterwards: the world is untouched and no
    remote call is added to the trace. *)
Lemma simple_rag_without_documents :
  forall (E : Env) (m : Machine E) (question_ : text),
    never_ingested E m ->
    let run := SimpleRag.answer_question E question_ m in
    status (fst run) = no_documents
    /\ sources (fst run) = []
    /\ answer (fst run) = SimpleRag.NO_DOCUMENTS_ANSWER
    /\ question (fst run) = question_
    /\ trace (snd run) = trace m
    /\ snd run = m.
Proof.
  intros E m question_ Hfresh run. unfold run.
  rewrite answer_question_eq, (never_ingested_store E m Hfresh).
  simpl. repeat split.
Qed.

(** C10.  [search] always returns: whenever the body of its [try] raises,
    be it the embedding call or an index past the end, the result is the
    empty list.  With documents stored, [answer_question] then answers
    [no_results], which is what it answers for any empty ranking.  Neither
    method changes the stored documents, embeddings and metadata. *)
Theorem search_failures_are_silent :
  forall (E : Env) (m : Machine E) (query : text),
    let reply :=
      fst (co_embed E [query] Config.EMBEDDING_MODEL (str "search_query")
                    (world m)) in
    (forall top_k e,
        (try r <- reply; SimpleRag.ranking (self m) r top_k) = Raised e ->
        fst (SimpleRag.search E query top_k m) = [])
    /\ (forall top_k e,
           reply = Raised e -> fst (SimpleRag.search E query top_k m) = [])
    /\ (documents (self m) <> [] ->
        fst (SimpleRag.search E query Config.TOP_K m) = [] ->
        fst (SimpleRag.answer_question E query m) = no_results_result query)
    /\ (forall top_k,
           self (snd (SimpleRag.search E query top_k m)) = self m)
    /\ self (snd (SimpleRag.answer_question E query m)) = self m.
Proof.
  intros E m query reply.
  assert (Hraise : forall top_k e,
             (try r <- reply; SimpleRag.ranking (self m) r top_k) = Raised e ->
             fst (SimpleRag.search E query top_k m) = []).
  { intros top_k e H. rewrite search_eq.
    destruct (negb (truthy (embeddings (self m)))); [reflexivity|].
    cbv zeta. simpl fst. fold reply. now rewrite H. }
  repeat split.
  - exact Hraise.
  - intros top_k e H. apply (Hraise top_k e). now rewrite H.
  - intros Hdocs Hnone. rewrite answer_question_eq.
    apply truthy_nonempty in Hdocs. rewrite Hdocs. simpl negb.
    cbv iota zeta. now rewrite Hnone.
  - intros top_k. apply search_self.
  - apply answer_question_self.
Qed.

Lemma search_failures_are_silent_witness :
  fst (SimpleRag.search Scenario.env_ok Scenario.QUESTION Config.TOP_K
         Scenario.orphaned) = []
  /\ fst (SimpleRag.answer_question Scenario.env_ok Scenario.QUESTION
            Scenario.orphaned)
     = no_results_result Scenario.QUESTION.
Proof.
  pose proof (search_failures_are_silent Scenario.env_ok Scenario.orphaned
                Scenario.QUESTION) as (_ & Hdown & Hanswer & _).
  assert (Hnone : fst (SimpleRag.search Scenario.env_ok Scenario.QUESTION
                         Config.TOP_K Scenario.orphaned) = [])
    by (apply (Hdown Config.TOP_K (str "service unavailable")); reflexivity).
  split; [exact Hnone|].
  apply Hanswer; [vm_compute; discriminate|exact Hnone].
Defined.

Lemma cosine_similarity_contract_witness :
  norm [1%R] <> 0%R /\ SimpleRag._cosine_similarity [1%R] [1%R] = 1%R.
Proof.
  assert (H : norm [1%R] <> 0%R).
  { unfold norm. simpl.
    replace (1 * 1 + 0)%R with 1%R by ring. rewrite sqrt_1. lra. }
  split; [exact H|].
  exact (proj2 (proj2 (proj2 (proj2 cosine_similarity_contract))) [1%R] H).
Defined.

(* ================================================================= *)
(** ** rag_simple.py, for comparison *)

(** X23.  The earlier variant has no [no_documents] status: with nothing stored
    it answers [no_results], also without any remote call. *)
Remark legacy_answer_without_documents :
  forall (E : Env) (m : Machine E) (question_ : text),
    embeddings (self m) = [] ->
    status (fst (RagSimple.answer_question E question_ m)) = no_results
    /\ snd (RagSimple.answer_question E question_ m) = m.
Proof.
  intros E m question_ H.
  unfold RagSimple.answer_question, RagSimple.search, bind, get_self, ret.
  rewrite H. simpl. split; reflexivity.
Qed.

(** X24.  The earlier variant has no fallback either: a generation call that
    raises gives status [error] and an answer that quotes the exception. *)
Remark legacy_generation_failure_is_error :
  forall (E : Env) (m : Machine E) (question_ e : text),
    let found := RagSimple.search E question_ Config.TOP_K m in
    fst found <> [] ->
    fst (co_generate E
           (RagSimple.prompt_of (SimpleRag.context_of E (fst found))
                                question_)
           Config.GENERATION_MODEL (world (snd found))) = Raised e ->
    status (fst (RagSimple.answer_question E question_ m)) = error
    /\ answer (fst (RagSimple.answer_question E question_ m))
       = str "Error generating answer: " ++ e.
Proof.
  intros E m question_ e found Hfound Hgen.
  assert (Hrun : fst (RagSimple.answer_question E question_ m)
                 = {| question := question_;
                      answer := str "Error generating answer: " ++ e;
                      sources := fst found; status := error;
                      model_used := None |}).
  { unfold RagSimple.answer_question, bind at 1. fold found.
    destruct found as [hits m1]. cbn [fst snd] in Hfound, Hgen |- *.
    destruct hits as [|h hs]; [congruence|].
    change (negb (truthy (h :: hs))) with false. cbv iota.
    unfold bind, generate, ret.
    destruct (co_generate E _ Config.GENERATION_MODEL (world m1)) as [r w].
    cbn [fst] in Hgen. subst r. reflexivity. }
  rewrite Hrun. split; reflexivity.
Qed.

(* ================================================================= *)
(** ** The orthonormal corpus *)

(** Splits a goal about a sorted concrete list into its comparisons. *)
Ltac split_sorted :=
  repeat first [apply SSorted_nil | apply SSorted_cons
               | apply Forall_nil | apply Forall_cons].

(** Three chunks embedded as the unit vectors and the query embedded as the
    first one: chunk 0 comes first with score 1, then chunks 1 and 2, tied
    on score 0, by ascending index. *)
Example orthonormal_ranking :
  sort_desc
    (SimpleRag.similarities [1; 0; 0]%R
       [[1; 0; 0]; [0; 1; 0]; [0; 0; 1]]%R)
  = [(0, 1%R); (1, 0%R); (2, 0%R)].
Proof.
  assert (H0 : SimpleRag._cosine_similarity [1; 0; 0]%R [1; 0; 0]%R = 1%R).
  { apply cosine_self. unfold norm. simpl.
    replace (1 * 1 + (0 * 0 + (0 * 0 + 0)))%R with 1%R by ring.
    rewrite sqrt_1. lra. }
  assert (Horth : forall e : vec,
             length e = 3 -> dot [1; 0; 0]%R e = 0%R ->
             SimpleRag._cosine_similarity [1; 0; 0]%R e = 0%R).
  { intros e Hlen Hdot. unfold SimpleRag._cosine_similarity.
    rewrite np_dot_same_length by (symmetry; exact Hlen). rewrite Hdot.
    destruct (is_zero _ || is_zero _); [reflexivity|].
    unfold Rdiv. apply Rmult_0_l. }
  change (SimpleRag.similarities [1; 0; 0]%R
            [[1; 0; 0]; [0; 1; 0]; [0; 0; 1]]%R)
    with [(0, SimpleRag._cosine_similarity [1; 0; 0]%R [1; 0; 0]%R);
          (1, SimpleRag._cosine_similarity [1; 0; 0]%R [0; 1; 0]%R);
          (2, SimpleRag._cosine_similarity [1; 0; 0]%R [0; 0; 1]%R)].
  rewrite H0, !Horth by (reflexivity || (simpl; ring)).
  apply ranked_unique.
  - apply sort_desc_sorted. split_sorted; simpl; lia.
  - split_sorted; unfold ranks_before; simpl;
      solve [left; lra | right; split; [reflexivity|lia]].
  - apply sort_desc_perm.
Qed.

(* ================================================================= *)
(** * Further properties *)

(* ================================================================= *)
(** ** Cleaning and splitting *)

Section CleaningFacts.

#[local] Arguments is_space : simpl never.

Lemma re_sub_ws_fixed (t : text) :
  well_spaced t ->
  forall r, (t = [] \/ head_nonspace t = true \/ r = false) ->
            re_sub_ws_from r t = t.
Proof.
  induction t as [|c t IH]; intros Hws r Hr; [reflexivity|].
  destruct Hws as [Hc Hws]. simpl.
  destruct (is_space c) eqn:E.
  - destruct (Hc eq_refl) as [-> Hh].
    destruct Hr as [Hr|[Hr| ->]]; [discriminate| |].
    + vm_compute in Hr. discriminate.
    + f_equal. apply IH; auto.
  - f_equal. apply IH; auto.
Qed.

Lemma rstrip_fixed (t : text) : well_spaced t -> rstrip t = t.
Proof.
  induction t as [|c t IH]; [reflexivity|].
  intros [Hc Hws]. rewrite rstrip_cons, (IH Hws).
  destruct t as [|d t]; [|reflexivity].
  destruct (is_space c) eqn:E; [|reflexivity].
  destruct (Hc eq_refl) as [_ H]. discriminate.
Qed.

Lemma well_spaced_last (t : text) :
  well_spaced t -> t <> [] -> head_nonspace (rev t) = true.
Proof.
  induction t as [|c t IH]; [congruence|]. intros [Hc Hws] _.
  simpl rev. destruct t as [|d t].
  - simpl. destruct (is_space c) eqn:E; [|reflexivity].
    destruct (Hc eq_refl) as [_ H]. discriminate.
  - apply head_nonspace_app, IH; [exact Hws|discriminate].
Qed.

(** No turn of the loop leaves [current_chunk] empty. *)
Lemma add_sentence_truthy (k : Z) (st : list text * text) (s : text) :
  truthy (snd (SimplePDFProcessor.add_sentence k st s)) = true.
Proof.
  destruct st as [chunks cur]. unfold SimplePDFProcessor.add_sentence.
  destruct (len cur + len s <? k)%Z; simpl.
  - destruct cur; [destruct s|]; reflexivity.
  - destruct s; reflexivity.
Qed.

Lemma add_sentence_loop_truthy (k : Z) (ss : list text) :
  forall st,
    truthy (snd st) = true ->
    truthy (snd (fold_left (SimplePDFProcessor.add_sentence k) ss st)) = true.
Proof.
  induction ss as [|s ss IH]; intros st H; [exact H|].
  simpl. apply IH, add_sentence_truthy.
Qed.

Lemma chunk_sentences_nonempty (k : Z) (ss : list text) :
  ss <> [] -> SimplePDFProcessor.chunk_sentences k ss <> [].
Proof.
  intros Hss. destruct ss as [|s ss]; [congruence|].
  unfold SimplePDFProcessor.chunk_sentences. cbn [fold_left].
  pose proof (add_sentence_loop_truthy k ss
                (SimplePDFProcessor.add_sentence k ([], []) s)
                (add_sentence_truthy k ([], []) s)) as H.
  destruct (fold_left _ ss _) as [chunks cur]. simpl in H. rewrite H.
  destruct chunks; discriminate.
Qed.

End CleaningFacts.

(** X1.  Cleaning leaves a text with no white space but single spaces
    between words, none at either end; cleaning it again changes
    nothing. *)
Theorem clean_text_idempotent :
  forall full_text : text,
    let cleaned := SimplePDFProcessor.clean_text full_text in
    SimplePDFProcessor.clean_text cleaned = cleaned
    /\ well_spaced cleaned
    /\ (cleaned = [] \/ tight cleaned).
Proof.
  intros full_text cleaned.
  destruct (clean_text_shape full_text) as [Hws Hhead].
  fold cleaned in Hws, Hhead. split; [|split; [exact Hws|]].
  - unfold SimplePDFProcessor.clean_text at 1, re_sub_ws, strip.
    rewrite re_sub_ws_fixed by (auto; destruct Hhead; auto).
    destruct Hhead as [->|Hhead]; [reflexivity|].
    rewrite lstrip_fixed by exact Hhead. now apply rstrip_fixed.
  - destruct Hhead as [Hnil|Hhead]; [now left|right].
    split; [exact Hhead|]. apply well_spaced_last; [exact Hws|].
    intros Hnil. rewrite Hnil in Hhead. discriminate.
Qed.

(** X2.  Whatever the pages hold, a file that can be read gives at least
    one chunk: [process_pdf] reports a failure exactly when opening the file
    or extracting its text raised. *)
Theorem process_pdf_fails_only_on_exception :
  forall (chunk_size : Z) (pages : outcome (list text)),
    (snd (SimplePDFProcessor.process_pdf chunk_size pages) = false
     <-> exists e, pages = Raised e)
    /\ (snd (SimplePDFProcessor.process_pdf chunk_size pages) = false ->
        fst (SimplePDFProcessor.process_pdf chunk_size pages) = []).
Proof.
  intros chunk_size [ps|e]; unfold SimplePDFProcessor.process_pdf; simpl.
  - pose proof (chunk_sentences_nonempty chunk_size
                  (re_split_sentences
                     (SimplePDFProcessor.clean_text
                        (SimplePDFProcessor.pages_text ps)))
                  (re_split_nonempty _ false false)) as H.
    unfold SimplePDFProcessor.chunk_text.
    destruct (SimplePDFProcessor.chunk_sentences _ _) as [|c cs];
      [congruence|].
    assert (Hpos : (0 <? len (c :: cs))%Z = true)
      by (apply Z.ltb_lt; unfold len; simpl; lia).
    rewrite Hpos. split; [split|]; try discriminate.
    intros [e H']. discriminate.
  - split; [split|]; auto. intros _. now exists e.
Qed.

Lemma process_pdf_fails_only_on_exception_witness :
  snd (SimplePDFProcessor.process_pdf 1000 (Raised (str "no such file")))
  = false
  /\ fst (SimplePDFProcessor.process_pdf 1000 (Raised (str "no such file")))
     = [].
Proof.
  assert (H : snd (SimplePDFProcessor.process_pdf 1000
                     (Raised (str "no such file"))) = false)
    by reflexivity.
  split; [exact H|].
  exact (proj2 (process_pdf_fails_only_on_exception 1000
                  (Raised (str "no such file"))) H).
Defined.

(* ================================================================= *)
(** ** Chunks *)

Section ChunkShapeFacts.

#[local] Arguments is_space : simpl never.

Lemma groups_count {A} (groups : list (list A)) :
  Forall (fun g => g <> []) groups ->
  length groups <= length (concat groups).
Proof.
  induction 1 as [|g gs Hg _ IH]; simpl; [lia|].
  rewrite length_app. destruct g; [congruence|simpl; lia].
Qed.

Lemma ends_with_terminal_cons (c : char) (p : text) :
  ends_with_terminal p = true -> ends_with_terminal (c :: p) = true.
Proof.
  unfold ends_with_terminal. simpl rev.
  destruct (rev p) as [|d q]; [discriminate|trivial].
Qed.

(** All the pieces but the last end with a terminal character; the first
    one may be empty, when the scan starts right after such a character. *)
Lemma split_terminated (s : text) :
  well_spaced s ->
  forall lb, exists p0 rest,
    re_split_from lb false s = p0 :: rest
    /\ Forall (fun p => ends_with_terminal p = true) (removelast rest)
    /\ (rest <> [] ->
        (p0 = [] /\ lb = true) \/ ends_with_terminal p0 = true).
Proof.
  induction s as [|c s IH]; intros Hws lb.
  - exists [], []. repeat split; [constructor|congruence].
  - destruct Hws as [Hc Hs]. simpl re_split_from.
    destruct (is_space c) eqn:E.
    + destruct (Hc eq_refl) as [-> Hh].
      destruct (IH Hs false) as (p0 & rest & Heq & Hrest & Hp0).
      destruct lb.
      * rewrite (re_split_after_separator s false false Hh), Heq.
        exists [], (p0 :: rest). repeat split; [|now left].
        destruct rest as [|q rest]; [constructor|].
        change (removelast (p0 :: q :: rest))
          with (p0 :: removelast (q :: rest)).
        constructor; [|exact Hrest].
        destruct Hp0 as [[_ H]|H]; [discriminate|discriminate|exact H].
      * rewrite Heq. exists (SPACE :: p0), rest.
        repeat split; [exact Hrest|].
        intros Hne. right. apply ends_with_terminal_cons.
        destruct (Hp0 Hne) as [[_ H]|H]; [discriminate|exact H].
    + destruct (IH Hs (is_terminal c)) as (p0 & rest & Heq & Hrest & Hp0).
      rewrite Heq. exists (c :: p0), rest. repeat split; [exact Hrest|].
      intros Hne. right.
      destruct (Hp0 Hne) as [[-> H]|H]; [exact H|].
      now apply ends_with_terminal_cons.
Qed.

(** With a size that no sentence fits under, every sentence is closed as
    soon as the next one comes. *)
Lemma chunk_each_sentence (k : Z) (ss : list text) :
  (k <= 0)%Z ->
  Forall (fun s => strip (s ++ [SPACE]) = s) ss ->
  forall chunks s0,
    strip (s0 ++ [SPACE]) = s0 ->
    let st :=
      fold_left (SimplePDFProcessor.add_sentence k) ss
                (chunks, s0 ++ [SPACE]) in
    (if truthy (snd st) then fst st ++ [strip (snd st)] else fst st)
    = chunks ++ s0 :: ss.
Proof.
  intros Hk. induction 1 as [|s ss Hs _ IH]; intros chunks s0 Hs0.
  - cbv zeta. cbn [fold_left fst snd].
    replace (truthy (s0 ++ [SPACE])) with true by (destruct s0; reflexivity).
    now rewrite Hs0.
  - assert (Hstep : SimplePDFProcessor.add_sentence k (chunks, s0 ++ [SPACE]) s
                    = (chunks ++ [s0], s ++ [SPACE])).
    { unfold SimplePDFProcessor.add_sentence.
      assert (Hlt : (len (s0 ++ [SPACE]) + len s <? k)%Z = false)
        by (apply Z.ltb_ge; unfold len; lia).
      assert (Ht : truthy (s0 ++ [SPACE]) = true)
        by (destruct s0; reflexivity).
      now rewrite Hlt, Ht, Hs0. }
    specialize (IH (chunks ++ [s0]) s Hs). cbv zeta in IH |- *.
    cbn [fold_left]. rewrite Hstep, IH. now rewrite <- app_assoc.
Qed.

Lemma join_prefix_len (p rest : list text) :
  (len (join [SPACE] p) <= len (join [SPACE] (p ++ rest)))%Z.
Proof.
  destruct p as [|a p]; [unfold len; simpl; lia|].
  destruct rest as [|b rest]; [rewrite app_nil_r; lia|].
  rewrite join_app by discriminate. rewrite !len_app.
  unfold len. lia.
Qed.

(** With a size that the whole text fits under, nothing is closed before
    the end. *)
Lemma chunk_all_pending (k : Z) (rest : list text) :
  forall p,
    (len (join [SPACE] (p ++ rest)) < k)%Z ->
    fold_left (SimplePDFProcessor.add_sentence k) rest ([], pending_text p)
    = ([], pending_text (p ++ rest)).
Proof.
  induction rest as [|s rest IH]; intros p Hlen.
  - now rewrite app_nil_r.
  - cbn [fold_left]. unfold SimplePDFProcessor.add_sentence at 2.
    assert (Hstep : (len (pending_text p) + len s <? k)%Z = true).
    { apply Z.ltb_lt.
      pose proof (join_prefix_len (p ++ [s]) rest) as Hle.
      rewrite <- app_assoc in Hle. simpl app in Hle.
      destruct p as [|a p].
      - cbn [app] in Hle, Hlen. change (join [SPACE] [s]) with s in Hle.
        change (len (pending_text [])) with 0%Z. lia.
      - rewrite pending_text_len in Hle by discriminate. lia. }
    rewrite Hstep, pending_text_snoc.
    rewrite IH; rewrite <- app_assoc; [reflexivity|exact Hlen].
Qed.

End ChunkShapeFacts.

(** X3.  When the cleaned text is not empty, no chunk is empty, no chunk
    has white space at either end, and there are at most as many chunks as
    sentences. *)
Theorem chunks_are_tight :
  forall (chunk_size : Z) (full_text : text),
    SimplePDFProcessor.clean_text full_text <> [] ->
    Forall tight (SimplePDFProcessor.chunk_text chunk_size full_text)
    /\ length (SimplePDFProcessor.chunk_text chunk_size full_text)
       <= length (re_split_sentences
                    (SimplePDFProcessor.clean_text full_text)).
Proof.
  intros chunk_size full_text Hne.
  destruct (clean_text_shape full_text) as [Hws [Hnil|Hhead]];
    [congruence|].
  pose proof (split_tight _ Hws Hhead) as Htight.
  destruct (chunk_sentences_groups chunk_size _ Htight)
    as (groups & Hcat & Hgood & Hchunks).
  unfold SimplePDFProcessor.chunk_text. rewrite Hchunks, length_map.
  rewrite <- Hcat in Htight |- *. apply Forall_concat in Htight. split.
  - rewrite Forall_map. rewrite Forall_forall in *.
    intros g Hg.
    apply tight_join; [exact (proj1 (Hgood g Hg))|exact (Htight g Hg)].
  - apply groups_count. eapply Forall_impl; [|exact Hgood].
    now intros g [H _].
Qed.

Lemma chunks_are_tight_witness :
  Forall tight (SimplePDFProcessor.chunk_text 10 (str " Aa. Bb.  Cc. ")).
Proof.
  apply (chunks_are_tight 10 (str " Aa. Bb.  Cc. ")).
  vm_compute. discriminate.
Defined.

(** X4.  The punctuation stays with the sentence it closes: every sentence
    of the cleaned text but the last ends with [.], [!] or [?]. *)
Theorem sentences_end_with_punctuation :
  forall full_text : text,
    Forall (fun s => ends_with_terminal s = true)
           (removelast
              (re_split_sentences (SimplePDFProcessor.clean_text full_text))).
Proof.
  intros full_text.
  destruct (clean_text_shape full_text) as [Hws _].
  destruct (split_terminated _ Hws false) as (p0 & rest & Heq & Hrest & Hp0).
  unfold re_split_sentences. rewrite Heq.
  destruct rest as [|q rest]; [constructor|].
  change (removelast (p0 :: q :: rest)) with (p0 :: removelast (q :: rest)).
  constructor; [|exact Hrest].
  destruct Hp0 as [[_ H]|H]; [discriminate|discriminate|exact H].
Qed.

(** X5.  With a chunk size of zero or less nothing is ever accumulated:
    the chunks are the sentences, one by one. *)
Theorem nonpositive_size_gives_sentences :
  forall (chunk_size : Z) (full_text : text),
    (chunk_size <= 0)%Z ->
    SimplePDFProcessor.chunk_text chunk_size full_text
    = re_split_sentences (SimplePDFProcessor.clean_text full_text).
Proof.
  intros chunk_size full_text Hk.
  destruct (clean_text_shape full_text) as [Hws [Hnil|Hhead]].
  - unfold SimplePDFProcessor.chunk_text. rewrite Hnil.
    apply chunk_sentences_empty_text.
  - pose proof (split_tight _ Hws Hhead) as Htight.
    unfold SimplePDFProcessor.chunk_text.
    destruct (re_split_sentences _) as [|s ss] eqn:Hss.
    { now apply re_split_nonempty in Hss. }
    inversion Htight as [|? ? Hs Hrest]; subst.
    unfold SimplePDFProcessor.chunk_sentences. cbn [fold_left].
    unfold SimplePDFProcessor.add_sentence at 2.
    assert (Hlt : (len (@nil char) + len s <? chunk_size)%Z = false)
      by (apply Z.ltb_ge; unfold len; lia).
    rewrite Hlt. cbn [truthy app].
    pose proof (chunk_each_sentence chunk_size ss Hk) as Hloop.
    assert (Hall : Forall (fun s => strip (s ++ [SPACE]) = s) ss)
      by (eapply Forall_impl; [|exact Hrest];
          intros a Ha; now apply strip_tight_space).
    specialize (Hloop Hall [] s (strip_tight_space s Hs)).
    cbv zeta in Hloop.
    destruct (fold_left _ ss _) as [chunks cur]. exact Hloop.
Qed.

Lemma nonpositive_size_gives_sentences_witness :
  SimplePDFProcessor.chunk_text 0 (str "Aa. Bb. Cc.")
  = [str "Aa."; str "Bb."; str "Cc."].
Proof.
  rewrite (nonpositive_size_gives_sentences 0 (str "Aa. Bb. Cc."))
    by lia.
  reflexivity.
Defined.

(** X6.  A text that is, once cleaned, not empty and shorter than the chunk
    size is one chunk: the cleaned text itself. *)
Theorem short_text_is_one_chunk :
  forall (chunk_size : Z) (full_text : text),
    SimplePDFProcessor.clean_text full_text <> [] ->
    (len (SimplePDFProcessor.clean_text full_text) < chunk_size)%Z ->
    SimplePDFProcessor.chunk_text chunk_size full_text
    = [SimplePDFProcessor.clean_text full_text].
Proof.
  intros chunk_size full_text Hne Hlen.
  destruct (clean_text_shape full_text) as [Hws [Hnil|Hhead]];
    [congruence|].
  pose proof (split_tight _ Hws Hhead) as Htight.
  pose proof (split_join _ Hws false) as Hjoin.
  fold (re_split_sentences (SimplePDFProcessor.clean_text full_text)) in Hjoin.
  unfold SimplePDFProcessor.chunk_text, SimplePDFProcessor.chunk_sentences.
  set (ss := re_split_sentences _) in *.
  change (@nil text, @nil char) with (@nil text, pending_text []).
  rewrite chunk_all_pending by (simpl; rewrite Hjoin; exact Hlen).
  simpl app. rewrite pending_text_truthy.
  assert (Hss : ss <> []) by apply re_split_nonempty.
  destruct ss as [|s ss']; [congruence|]. cbn [truthy app].
  rewrite strip_pending by (discriminate || assumption).
  now rewrite Hjoin.
Qed.

Lemma short_text_is_one_chunk_witness :
  SimplePDFProcessor.chunk_text 1000 (str " Hello  world. Bye. ")
  = [str "Hello world. Bye."].
Proof.
  rewrite (short_text_is_one_chunk 1000 (str " Hello  world. Bye. "));
    [reflexivity| |]; vm_compute; [discriminate|reflexivity].
Defined.

(* ================================================================= *)
(** ** Paths *)

Section PathFacts.

Lemma basename_from_no_slash (p : text) :
  forall acc, ~ In SLASH acc -> ~ In SLASH (basename_from acc p).
Proof.
  induction p as [|c p IH]; intros acc Hacc; simpl; [exact Hacc|].
  destruct (c =? 47)%N eqn:E.
  - apply IH. intros [].
  - apply IH. intros H. apply in_app_or in H. destruct H as [H|[H|[]]].
    + now apply Hacc.
    + apply N.eqb_neq in E. now apply E.
Qed.

Lemma basename_from_plain (name : text) :
  ~ In SLASH name -> forall acc, basename_from acc name = acc ++ name.
Proof.
  induction name as [|c name IH]; intros Hname acc; simpl.
  - now rewrite app_nil_r.
  - destruct (c =? 47)%N eqn:E.
    + apply N.eqb_eq in E. exfalso. apply Hname. now left.
    + rewrite IH by (intros H; apply Hname; now right).
      now rewrite <- app_assoc.
Qed.

Lemma basename_from_directory (dir rest : text) :
  forall acc,
    basename_from acc (dir ++ SLASH :: rest) = basename_from [] rest.
Proof.
  induction dir as [|c dir IH]; intros acc; simpl; [reflexivity|].
  destruct (c =? 47)%N; apply IH.
Qed.

End PathFacts.

(** X7.  After a successful ingestion every metadata entry names the file
    and not its directory: its [source] is what follows the last slash of
    the path, and its [chunk_id] is its position. *)
Theorem metadata_source_is_file_name :
  forall (E : Env) (m : Machine E) (dir name : text),
    ~ In SLASH name ->
    fst (SimpleRag.process_document E (dir ++ SLASH :: name) m) = true ->
    let store :=
      self (snd (SimpleRag.process_document E (dir ++ SLASH :: name) m)) in
    metadata store
    = map (fun i => {| source := name; chunk_id := i |})
          (seq 0 (length (documents store))).
Proof.
  intros E m dir name Hname Hrun store. unfold store.
  destruct (process_document_cases E (dir ++ SLASH :: name) m)
    as [[Hfail _]|(chunks & embs & _ & _ & _ & _ & ->)]; [congruence|].
  simpl. unfold basename.
  rewrite basename_from_directory, basename_from_plain by exact Hname.
  reflexivity.
Qed.

Lemma metadata_source_is_file_name_witness :
  metadata (self (snd (SimpleRag.process_document Scenario.env_ok
                         (str "/tmp" ++ SLASH :: str "report.pdf")
                         (init (E := Scenario.env_ok) true))))
  = [{| source := str "report.pdf"; chunk_id := 0 |}].
Proof.
  rewrite (metadata_source_is_file_name Scenario.env_ok
             (init (E := Scenario.env_ok) true)
             (str "/tmp") (str "report.pdf")).
  - reflexivity.
  - vm_compute. intuition discriminate.
  - reflexivity.
Defined.

(* ================================================================= *)
(** ** Cosine similarity and the length of vectors *)

Section ScaleFacts.

Local Open Scope R_scope.

Lemma scale_length (k : R) (a : vec) : length (scale k a) = length a.
Proof. apply length_map. Qed.

Lemma dot_scale_l (k : R) (a : vec) :
  forall b, dot (scale k a) b = k * dot a b.
Proof.
  induction a as [|x a IH]; intros [|y b]; simpl; try ring.
  rewrite IH. ring.
Qed.

Lemma norm_scale (k : R) (a : vec) : 0 < k -> norm (scale k a) = k * norm a.
Proof.
  intros Hk. unfold norm.
  rewrite dot_scale_l, (dot_comm a (scale k a)), dot_scale_l.
  replace (k * (k * dot a a)) with (k * k * dot a a) by ring.
  rewrite sqrt_mult by (try apply dot_self_nonneg; nra).
  rewrite sqrt_square by lra. reflexivity.
Qed.

Lemma is_zero_scale (k x : R) : 0 < k -> is_zero (k * x) = is_zero x.
Proof.
  intros Hk. destruct (is_zero x) eqn:E.
  - apply is_zero_true in E. apply is_zero_true. subst. ring.
  - apply is_zero_false in E. apply is_zero_false. nra.
Qed.

End ScaleFacts.

(** X8.  The score does not depend on the length of the vectors: scaling
    either embedding by a positive factor leaves the cosine similarity
    unchanged. *)
Theorem cosine_similarity_scale_invariant :
  forall (k : R) (a b : vec),
    (0 < k)%R ->
    SimpleRag._cosine_similarity (scale k a) b
    = SimpleRag._cosine_similarity a b
    /\ SimpleRag._cosine_similarity a (scale k b)
       = SimpleRag._cosine_similarity a b.
Proof.
  assert (Hleft : forall (k : R) (a b : vec),
             (0 < k)%R ->
             SimpleRag._cosine_similarity (scale k a) b
             = SimpleRag._cosine_similarity a b).
  { intros k a b Hk. unfold SimpleRag._cosine_similarity, np_dot.
    rewrite scale_length.
    destruct (length a =? length b)%nat; [|reflexivity].
    rewrite norm_scale, is_zero_scale, dot_scale_l by exact Hk.
    destruct (is_zero (norm a)) eqn:Ea; [reflexivity|].
    destruct (is_zero (norm b)) eqn:Eb; [reflexivity|].
    simpl. apply is_zero_false in Ea, Eb. field. repeat split; lra. }
  intros k a b Hk. split; [now apply Hleft|].
  rewrite (cosine_sym a (scale k b)), (cosine_sym a b). now apply Hleft.
Qed.

Lemma cosine_similarity_scale_invariant_witness :
  SimpleRag._cosine_similarity (scale 2 [1; 0]%R) [1; 1]%R
  = SimpleRag._cosine_similarity [1; 0]%R [1; 1]%R.
Proof.
  apply (cosine_similarity_scale_invariant 2 [1; 0]%R [1; 1]%R). lra.
Defined.

(* ================================================================= *)
(** ** What [search] returns *)

Section TopKFacts.

Variable E : Env.

Lemma enumerate_snd {A} (l : list A) :
  forall start, map snd (enumerate start l) = l.
Proof.
  induction l as [|x l IH]; intros start; [reflexivity|].
  rewrite enumerate_cons. simpl. now rewrite IH.
Qed.

Lemma similarities_indices (q : vec) (embs : list vec) :
  map fst (SimpleRag.similarities q embs) = seq 0 (length embs).
Proof.
  unfold SimpleRag.similarities. rewrite map_map. simpl.
  generalize 0 as start.
  induction embs as [|e embs IH]; intros start; [reflexivity|].
  rewrite enumerate_cons. simpl. now rewrite IH.
Qed.

Lemma similarities_nth (q : vec) (embs : list vec) (i : nat) (emb : vec) :
  nth_error embs i = Some emb ->
  In (i, SimpleRag._cosine_similarity q emb) (SimpleRag.similarities q embs).
Proof.
  unfold SimpleRag.similarities. intros H.
  apply in_map_iff. exists (i, emb). split; [reflexivity|].
  replace i with (0 + i) at 1 by lia. generalize 0 as start.
  revert i H. induction embs as [|e embs IH]; intros [|i] H start;
    try discriminate; rewrite enumerate_cons.
  - injection H as ->. left. f_equal. lia.
  - right. replace (start + S i) with (S start + i) by lia. now apply IH.
Qed.

Lemma NoDup_firstn {A} (l : list A) :
  NoDup l -> forall n, NoDup (firstn n l).
Proof.
  induction 1 as [|x l Hx _ IH]; intros [|n]; simpl; try constructor.
  - intros H. apply Hx. rewrite <- (firstn_skipn n l).
    apply in_or_app. now left.
  - apply IH.
Qed.

Lemma slice_to_firstn {A} (k : Z) (l : list A) :
  exists n, slice_to k l = firstn n l.
Proof. unfold slice_to. destruct (k <? 0)%Z; eexists; reflexivity. Qed.

Lemma sorted_app_order {A} (R : A -> A -> Prop) (l1 l2 : list A) :
  StronglySorted R (l1 ++ l2) ->
  forall x y, In x l1 -> In y l2 -> R x y.
Proof.
  induction l1 as [|a l1 IH]; intros H x y Hx Hy; [contradiction|].
  simpl in H. apply StronglySorted_inv in H. destruct H as [Hs Ha].
  destruct Hx as [<-|Hx].
  - rewrite Forall_forall in Ha. apply Ha, in_or_app. now right.
  - now apply IH.
Qed.

Lemma Forall2_In_l {A B} (P : A -> B -> Prop) (l : list A) (l' : list B) :
  Forall2 P l l' -> forall x, In x l -> exists y, In y l' /\ P x y.
Proof.
  induction 1 as [|x y l l' Hxy _ IH]; intros z Hz; [contradiction|].
  destruct Hz as [<-|Hz].
  - exists y. split; [now left|exact Hxy].
  - destruct (IH z Hz) as (y' & Hin & Hp). exists y'.
    split; [now right|exact Hp].
Qed.

(** The chunk indices of the results are the indices of the cut ranking. *)
Lemma hit_chunks (s : Store) (sl : list (nat * R)) :
  aligned s ->
  forall start hs,
    Forall2 (hit_matches s) (enumerate start sl) hs ->
    map hit_chunk hs = map fst sl.
Proof.
  intros [_ Hid]. induction sl as [|x sl IH]; intros start hs H.
  - inversion H. reflexivity.
  - rewrite enumerate_cons in H.
    inversion H as [|t h top hs' Ht Hrest]; subst. simpl.
    destruct Ht as (_ & _ & _ & Hmd). simpl in Hmd.
    unfold hit_chunk at 1. rewrite (Hid _ _ Hmd). f_equal.
    now apply (IH (S start)).
Qed.

(** When the provider answers and every stored embedding has its chunk
    and its metadata, every entry of the cut ranking becomes a result. *)
Lemma search_answers (q : text) (k : Z) (m : Machine E) (qe : vec)
      (rest : list vec) :
  fst (co_embed E [q] Config.EMBEDDING_MODEL (str "search_query") (world m))
  = Returned (qe :: rest) ->
  length (embeddings (self m)) <= length (documents (self m)) ->
  length (embeddings (self m)) <= length (metadata (self m)) ->
  Forall2 (hit_matches (self m))
    (enumerate 0
       (slice_to k
          (sort_desc (SimpleRag.similarities qe (embeddings (self m))))))
    (fst (SimpleRag.search E q k m)).
Proof.
  intros Hreply Hdocs Hmeta. rewrite search_eq.
  destruct (truthy (embeddings (self m))) eqn:Htruthy.
  - simpl negb. cbv iota zeta. simpl fst. rewrite Hreply.
    unfold SimpleRag.ranking, index. simpl nth_error. unfold and_then.
    set (top := slice_to k _).
    destruct (results_total (self m) (enumerate 0 top)) as [hs Hhs].
    { rewrite Forall_forall. intros [i [d sc]] Hin. simpl.
      apply enumerate_In in Hin. destruct Hin as [_ Hin].
      apply nth_error_In, slice_to_incl in Hin.
      apply (Permutation_in _ (sort_desc_perm _)) in Hin.
      apply similarities_In in Hin. destruct Hin as (emb & Hemb & _).
      assert (d < length (embeddings (self m)))
        by (apply nth_error_Some; congruence).
      lia. }
    rewrite Hhs. now apply results_spec.
  - destruct (embeddings (self m)); [|discriminate]. simpl.
    unfold slice_to. destruct (k <? 0)%Z; rewrite firstn_nil; constructor.
Qed.

End TopKFacts.

(** X9.  [search] never returns more results than there are stored
    embeddings, nor more than [top_k] when [top_k] is not negative,
    whatever the provider does. *)
Theorem search_returns_at_most_top_k :
  forall (E : Env) (m : Machine E) (query : text) (top_k : Z),
    (len (fst (SimpleRag.search E query top_k m))
     <= len (embeddings (self m)))%Z
    /\ ((0 <= top_k)%Z ->
        (len (fst (SimpleRag.search E query top_k m)) <= top_k)%Z).
Proof.
  intros E m query top_k.
  destruct (search_cases E query top_k m) as [->|(qe & rest & _ & Hall)].
  - unfold len. simpl. split; lia.
  - apply Forall2_length in Hall. rewrite enumerate_length in Hall.
    unfold len at 1 3. rewrite <- Hall. split.
    + destruct (slice_to_firstn top_k
                  (sort_desc
                     (SimpleRag.similarities qe (embeddings (self m)))))
        as [n ->].
      rewrite length_firstn, sort_desc_length, similarities_length.
      unfold len. lia.
    + intros Hk. fold (len (slice_to top_k
                             (sort_desc
                                (SimpleRag.similarities qe
                                   (embeddings (self m)))))).
      rewrite slice_to_length by exact Hk. lia.
Qed.

Lemma search_returns_at_most_top_k_witness :
  (len (fst (SimpleRag.search Scenario.env_ok Scenario.QUESTION 0
               (Scenario.loaded Scenario.env_ok true))) <= 0)%Z.
Proof.
  apply (proj2 (search_returns_at_most_top_k Scenario.env_ok
                  (Scenario.loaded Scenario.env_ok true)
                  Scenario.QUESTION 0)).
  lia.
Defined.

(** X11.  In every state of a session no chunk is returned twice, and
    every result is a stored chunk. *)
Theorem search_results_distinct :
  forall (E : Env) (m : Machine E) (query : text) (top_k : Z),
    reachable E m ->
    NoDup (map hit_chunk (fst (SimpleRag.search E query top_k m)))
    /\ Forall (fun h => hit_chunk h < length (embeddings (self m)))
              (fst (SimpleRag.search E query top_k m)).
Proof.
  intros E m query top_k Hreach.
  pose proof (reachable_aligned E m Hreach) as Hal.
  destruct (search_cases E query top_k m) as [->|(qe & rest & _ & Hall)].
  - split; constructor.
  - pose proof (hit_chunks (self m) _ Hal 0 _ Hall) as Hchunks.
    set (sorted := sort_desc
                     (SimpleRag.similarities qe (embeddings (self m)))) in *.
    assert (Hperm : Permutation (map fst sorted)
                      (seq 0 (length (embeddings (self m))))).
    { rewrite <- (similarities_indices qe). apply Permutation_map.
      apply sort_desc_perm. }
    destruct (slice_to_firstn top_k sorted) as [n Hn].
    rewrite Hn in Hchunks. rewrite <- firstn_map in Hchunks. split.
    + rewrite Hchunks. apply NoDup_firstn.
      apply (Permutation_NoDup (Permutation_sym Hperm)), seq_NoDup.
    + rewrite <- (Forall_map hit_chunk
                    (fun i => i < length (embeddings (self m)))).
      rewrite Hchunks, Forall_forall. intros i Hi.
      assert (Hin : In i (map fst sorted)).
      { rewrite <- (firstn_skipn n (map fst sorted)).
        apply in_or_app. now left. }
      apply (Permutation_in _ Hperm), in_seq in Hin. lia.
Qed.

(** X12.  The results are the best chunks: in every state of a session, a
    stored chunk that is not among the results scores no higher than any
    result. *)
Theorem search_returns_the_best :
  forall (E : Env) (m : Machine E) (query : text) (top_k : Z)
         (qe : vec) (rest : list vec),
    reachable E m ->
    fst (co_embed E [query] Config.EMBEDDING_MODEL (str "search_query")
                  (world m)) = Returned (qe :: rest) ->
    forall (h : Hit) (i : nat) (emb : vec),
      In h (fst (SimpleRag.search E query top_k m)) ->
      nth_error (embeddings (self m)) i = Some emb ->
      (exists h', In h' (fst (SimpleRag.search E query top_k m))
                  /\ hit_chunk h' = i)
      \/ (SimpleRag._cosine_similarity qe emb <= hit_score h)%R.
Proof.
  intros E m query top_k qe rest Hreach Hreply h i emb Hh Hemb.
  pose proof (reachable_aligned E m Hreach) as Hal.
  destruct (search_cases E query top_k m)
    as [Hnil|(qe' & rest' & Hreply' & Hall)].
  { rewrite Hnil in Hh. contradiction. }
  rewrite Hreply in Hreply'. injection Hreply' as <- <-.
  set (sorted := sort_desc
                   (SimpleRag.similarities qe (embeddings (self m)))) in *.
  destruct (slice_to_firstn top_k sorted) as [n Hn]. rewrite Hn in Hall.
  assert (Hsorted : StronglySorted ranks_before sorted)
    by apply ranking_sorted.
  assert (Hx : In (i, SimpleRag._cosine_similarity qe emb) sorted).
  { apply (Permutation_in _ (Permutation_sym (sort_desc_perm _))).
    now apply similarities_nth. }
  rewrite <- (firstn_skipn n sorted) in Hx, Hsorted.
  apply in_app_or in Hx. destruct Hx as [Hx|Hx].
  - left. apply (In_nth_error (firstn n sorted)) in Hx.
    destruct Hx as [j Hj].
    assert (Hin : In (j, (i, SimpleRag._cosine_similarity qe emb))
                     (enumerate 0 (firstn n sorted))).
    { clear - Hj. replace j with (0 + j) at 1 by lia.
      revert j Hj. generalize 0 as start.
      induction (firstn n sorted) as [|y l IH]; intros start [|j] Hj;
        try discriminate; rewrite enumerate_cons.
      - injection Hj as ->. left. f_equal. lia.
      - right. specialize (IH (S start) j Hj).
        replace (S start + j) with (start + S j) in IH by lia.
        exact IH. }
    destruct (Forall2_In_l _ _ _ Hall _ Hin) as (h' & Hh' & Hm).
    exists h'. split; [exact Hh'|].
    destruct Hm as (_ & _ & _ & Hmd). simpl in Hmd.
    destruct Hal as [_ Hid]. apply (Hid _ _ Hmd).
  - right.
    destruct (Forall2_In_r _ _ _ Hall h Hh) as ([j [d sc]] & Hin & Hm).
    destruct Hm as (_ & Hsc & _). simpl in Hsc. rewrite Hsc.
    apply enumerate_In in Hin. destruct Hin as [_ Hin].
    apply nth_error_In in Hin.
    apply (ranks_before_le (d, sc) (i, SimpleRag._cosine_similarity qe emb)).
    now apply (sorted_app_order _ _ _ Hsorted).
Qed.

(* ================================================================= *)
(** ** What [answer_question] does *)

Section AnswerEffects.

Variable E : Env.

Lemma search_trace (q : text) (k : Z) (m : Machine E) :
  trace (snd (SimpleRag.search E q k m))
  = trace m
    ++ (if truthy (embeddings (self m))
        then [CallEmbed [q] Config.EMBEDDING_MODEL (str "search_query")]
        else []).
Proof.
  rewrite search_eq. destruct (truthy (embeddings (self m))); simpl.
  - reflexivity.
  - now rewrite app_nil_r.
Qed.

Lemma search_found_needs_embeddings (q : text) (k : Z) (m : Machine E) :
  fst (SimpleRag.search E q k m) <> [] ->
  truthy (embeddings (self m)) = true.
Proof.
  rewrite search_eq. destruct (truthy (embeddings (self m))); simpl;
    congruence.
Qed.

Lemma search_le_top_k (q : text) (m : Machine E) :
  length (fst (SimpleRag.search E q Config.TOP_K m)) <= 3.
Proof.
  destruct (search_cases E q Config.TOP_K m) as [->|(qe & rest & _ & Hall)];
    [simpl; lia|].
  apply Forall2_length in Hall. rewrite enumerate_length in Hall.
  rewrite <- Hall.
  change (slice_to Config.TOP_K) with (@firstn (nat * R) 3).
  apply firstn_le_length.
Qed.

(** The result of [answer_question], by cases on what [search] found and
    on what the generation call gave. *)
Lemma answer_question_cases (q : text) (m : Machine E) :
  let run := SimpleRag.answer_question E q m in
  let found := SimpleRag.search E q Config.TOP_K m in
  (documents (self m) = [] /\ run = (no_documents_result q, m))
  \/ (documents (self m) <> [] /\ fst found = []
      /\ run = (no_results_result q, snd found))
  \/ (documents (self m) <> [] /\ fst found <> []
      /\ question (fst run) = q
      /\ sources (fst run) = fst found
      /\ (status (fst run) = success \/ status (fst run) = fallback)
      /\ trace (snd run)
         = trace (snd found)
           ++ [CallChat (SimpleRag.chat_message
                           (SimpleRag.context_of E (fst found)) q)
                        Config.GENERATION_MODEL]).
Proof.
  cbv zeta. rewrite answer_question_eq.
  destruct (documents (self m)) as [|d ds] eqn:Hdocs; [now left|right].
  simpl negb. cbv iota zeta.
  destruct (fst (SimpleRag.search E q Config.TOP_K m)) as [|h hs] eqn:Hfound.
  - left. repeat split; congruence.
  - right. simpl negb. cbv iota.
    destruct (fst (co_chat E _ Config.GENERATION_MODEL _)) as [t|e];
      simpl; repeat split; auto; congruence.
Qed.

End AnswerEffects.

(** X13.  [answer_question] never returns status [error], and its remote
    calls are exactly these: none without documents; the embedding of the
    question alone when the ranking is empty; that embedding and then one
    generation call, on the context built from the returned sources,
    otherwise. *)
Theorem answer_question_remote_calls :
  forall (E : Env) (m : Machine E) (question_ : text),
    let run := SimpleRag.answer_question E question_ m in
    status (fst run) <> error
    /\ question (fst run) = question_
    /\ trace (snd run) = trace m ++ calls_of_answer E (self m) (fst run).
Proof.
  intros E m question_ run. unfold run.
  destruct (answer_question_cases E question_ m)
    as [[_ ->]|[(_ & Hnone & ->)|(_ & Hfound & Hq & Hsrc & Hst & Htrace)]].
  - simpl. repeat split; [discriminate|now rewrite app_nil_r].
  - simpl. repeat split; [discriminate|].
    unfold calls_of_answer. simpl. apply search_trace.
  - repeat split; [destruct Hst as [-> | ->]; discriminate|exact Hq|].
    rewrite Htrace, search_trace.
    rewrite (search_found_needs_embeddings E _ _ _ Hfound).
    unfold calls_of_answer. rewrite Hq, Hsrc, <- app_assoc.
    destruct Hst as [-> | ->]; reflexivity.
Qed.

(** X14.  [answer_question] returns at most three sources; it returns none
    exactly when the status is [no_documents] or [no_results], and
    otherwise the sources are all that [search] found. *)
Theorem answer_question_sources :
  forall (E : Env) (m : Machine E) (question_ : text),
    let result := fst (SimpleRag.answer_question E question_ m) in
    length (sources result) <= 3
    /\ (sources result = []
        <-> status result = no_documents \/ status result = no_results)
    /\ (sources result <> [] ->
        sources result
        = fst (SimpleRag.search E question_ Config.TOP_K m)).
Proof.
  intros E m question_ result. unfold result.
  destruct (answer_question_cases E question_ m)
    as [[_ ->]|[(_ & _ & ->)|(_ & Hfound & _ & Hsrc & Hst & _)]].
  - simpl. repeat split; auto; congruence.
  - simpl. repeat split; auto; congruence.
  - rewrite Hsrc. repeat split.
    + apply search_le_top_k.
    + congruence.
    + intros [H|H]; destruct Hst as [Hst|Hst]; congruence.
Qed.

Lemma answer_question_sources_witness :
  sources (fst (SimpleRag.answer_question Scenario.env_ok Scenario.QUESTION
                  (Scenario.loaded Scenario.env_ok true)))
  = fst (SimpleRag.search Scenario.env_ok Scenario.QUESTION Config.TOP_K
           (Scenario.loaded Scenario.env_ok true)).
Proof.
  apply (proj2 (proj2 (answer_question_sources Scenario.env_ok
                         (Scenario.loaded Scenario.env_ok true)
                         Scenario.QUESTION))).
  vm_compute. discriminate.
Defined.

(** X15.  [get_stats] changes nothing, and its counters tell what a
    question will get: [documents_loaded] is zero exactly when
    [answer_question] answers [no_documents], and with
    [embeddings_created] at zero no answer is ever generated. *)
Theorem get_stats_foretells_status :
  forall (E : Env) (m : Machine E) (question_ : text),
    let stats := fst (SimpleRag.get_stats E m) in
    let result := fst (SimpleRag.answer_question E question_ m) in
    snd (SimpleRag.get_stats E m) = m
    /\ (documents_loaded stats = 0%Z <-> status result = no_documents)
    /\ (embeddings_created stats = 0%Z ->
        status result = no_documents \/ status result = no_results).
Proof.
  intros E m question_ stats result. unfold stats, result.
  unfold SimpleRag.get_stats, bind, get_self, ret. simpl.
  split; [reflexivity|].
  destruct (answer_question_cases E question_ m)
    as [[Hdocs ->]|[(Hdocs & _ & ->)|(Hdocs & Hfound & _ & _ & Hst & _)]].
  - rewrite Hdocs. simpl. repeat split; auto.
  - simpl. repeat split; auto; try discriminate.
    intros H. destruct (documents (self m)); [congruence|discriminate].
  - repeat split.
    + intros H. destruct (documents (self m)); [congruence|discriminate].
    + destruct Hst as [-> | ->]; discriminate.
    + intros H. apply search_found_needs_embeddings in Hfound.
      destruct (embeddings (self m)); discriminate.
Qed.

Lemma get_stats_foretells_status_witness :
  status (fst (SimpleRag.answer_question Scenario.env_ok Scenario.QUESTION
                 (init (E := Scenario.env_ok) true)))
  = no_documents.
Proof.
  apply (proj1 (proj2 (get_stats_foretells_status Scenario.env_ok
                         (init (E := Scenario.env_ok) true)
                         Scenario.QUESTION))).
  reflexivity.
Defined.

(** X16.  A store that holds documents never becomes empty again, whether
    a later ingestion succeeds or fails; and right after a successful
    ingestion no question is answered with [no_documents]. *)
Theorem ingested_documents_stay :
  forall (E : Env) (m : Machine E) (pdf_path question_ : text),
    let m' := snd (SimpleRag.process_document E pdf_path m) in
    (documents (self m) <> [] -> documents (self m') <> [])
    /\ (fst (SimpleRag.process_document E pdf_path m) = true ->
        documents (self m') <> []
        /\ status (fst (SimpleRag.answer_question E question_ m'))
           <> no_documents).
Proof.
  intros E m pdf_path question_ m'.
  assert (Hok : fst (SimpleRag.process_document E pdf_path m) = true ->
                documents (self m') <> []).
  { intros Hrun.
    destruct (process_document_cases E pdf_path m)
      as [[Hfail _]|(chunks & embs & _ & Hne & _ & _ & Hstore)];
      [congruence|].
    unfold m'. now rewrite Hstore. }
  split.
  - intros Hdocs.
    destruct (process_document_cases E pdf_path m)
      as [[_ Hsame]|(chunks & embs & Hrun & _)].
    + unfold m'. now rewrite Hsame.
    + now apply Hok.
  - intros Hrun. split; [now apply Hok|].
    destruct (answer_question_cases E question_ m')
      as [[Hdocs _]|[(_ & _ & ->)|(_ & _ & _ & _ & Hst & _)]].
    + now apply Hok in Hrun.
    + discriminate.
    + destruct Hst as [-> | ->]; discriminate.
Qed.

Lemma ingested_documents_stay_witness :
  documents (self (Scenario.loaded Scenario.env_ok true)) <> []
  /\ status (fst (SimpleRag.answer_question Scenario.env_ok Scenario.QUESTION
                    (Scenario.loaded Scenario.env_ok true)))
     <> no_documents.
Proof.
  apply (proj2 (ingested_documents_stay Scenario.env_ok
                  (init (E := Scenario.env_ok) true) Scenario.PATH
                  Scenario.QUESTION)).
  reflexivity.
Defined.

(* ================================================================= *)
(** ** rag_simple.py against simple_rag.py *)

Section LegacyFacts.

Variable E : Env.

Lemma legacy_cosine_same_length (a b : vec) :
  length a = length b ->
  RagSimple._cosine_similarity a b
  = Returned (SimpleRag._cosine_similarity a b).
Proof.
  intros H.
  unfold RagSimple._cosine_similarity, SimpleRag._cosine_similarity, and_then.
  rewrite (np_dot_same_length _ _ H).
  destruct (is_zero (norm a) || is_zero (norm b)); reflexivity.
Qed.

Lemma legacy_cosine_mismatch (a b : vec) :
  length a <> length b ->
  exists e, RagSimple._cosine_similarity a b = Raised e.
Proof.
  intros H. unfold RagSimple._cosine_similarity, and_then, np_dot.
  apply Nat.eqb_neq in H. rewrite H. eexists. reflexivity.
Qed.

Lemma legacy_similarities_uniform (qe : vec) (l : list (nat * vec)) :
  Forall (fun e => length e = length qe) (map snd l) ->
  RagSimple.similarities qe l
  = Returned
      (map (fun p => (fst p, SimpleRag._cosine_similarity qe (snd p))) l).
Proof.
  induction l as [|[i e] l IH]; intros H; [reflexivity|].
  simpl in H. inversion H as [|? ? He Hl]; subst. simpl.
  rewrite legacy_cosine_same_length by (symmetry; exact He).
  unfold and_then at 1. rewrite (IH Hl). reflexivity.
Qed.

Lemma legacy_similarities_mismatch (qe : vec) (l : list (nat * vec)) :
  Exists (fun e => length e <> length qe) (map snd l) ->
  exists e, RagSimple.similarities qe l = Raised e.
Proof.
  induction l as [|[i v] l IH]; intros H; simpl in H.
  - inversion H.
  - simpl.
    destruct (RagSimple._cosine_similarity qe v) as [sc|e] eqn:Hcos;
      [|eexists; reflexivity].
    unfold and_then at 1.
    assert (Hl : Exists (fun e => length e <> length qe) (map snd l)).
    { inversion H as [? ? Hv|? ? Hl]; subst; [|exact Hl].
      destruct (legacy_cosine_mismatch qe v) as [e He];
        [congruence|congruence]. }
    destruct (IH Hl) as [e ->]. eexists. reflexivity.
Qed.

Lemma legacy_search_eq (q : text) (k : Z) (m : Machine E) :
  RagSimple.search E q k m
  = if negb (truthy (embeddings (self m))) then ([], m)
    else
      let reply :=
        co_embed E [q] Config.EMBEDDING_MODEL (str "search_query")
                 (world m) in
      (match (try r <- fst reply; RagSimple.ranking (self m) r k) with
       | Returned found => found
       | Raised _ => []
       end,
       Build_Machine (self m) (snd reply)
         (trace m ++ [CallEmbed [q] Config.EMBEDDING_MODEL
                                (str "search_query")])).
Proof.
  unfold RagSimple.search, bind, get_self, ret, embed.
  destruct (negb (truthy (embeddings (self m)))); [reflexivity|].
  destruct (co_embed E [q] Config.EMBEDDING_MODEL (str "search_query")
                     (world m)); reflexivity.
Qed.

(** With one dimension throughout, the two variants of [search] agree. *)
Lemma legacy_search_uniform (q : text) (k : Z) (m : Machine E) :
  (forall qe rest,
      fst (co_embed E [q] Config.EMBEDDING_MODEL (str "search_query")
                    (world m)) = Returned (qe :: rest) ->
      Forall (fun e => length e = length qe) (embeddings (self m))) ->
  RagSimple.search E q k m = SimpleRag.search E q k m.
Proof.
  intros Hdim. rewrite legacy_search_eq, search_eq.
  destruct (negb (truthy (embeddings (self m)))); [reflexivity|].
  cbv zeta. f_equal.
  destruct (fst (co_embed E [q] Config.EMBEDDING_MODEL
                          (str "search_query") (world m)))
    as [[|qe rest]|e] eqn:Hreply; try reflexivity.
  cbn [and_then]. unfold RagSimple.ranking, SimpleRag.ranking, index.
  cbn [nth_error and_then].
  rewrite legacy_similarities_uniform
    by (rewrite enumerate_snd; now apply (Hdim qe rest)).
  reflexivity.
Qed.

End LegacyFacts.

(** X17.  On a file that exists the two variants of [process_document] do
    the same: the same result, the same store, the same remote call. *)
Theorem legacy_process_document_agrees :
  forall (E : Env) (m : Machine E) (pdf_path : text),
    path_exists E pdf_path (world m) = true ->
    RagSimple.process_document E pdf_path m
    = SimpleRag.process_document E pdf_path m.
Proof.
  intros E m pdf_path Hpath.
  unfold RagSimple.process_document, SimpleRag.process_document.
  unfold bind at 6, ask. rewrite Hpath. reflexivity.
Qed.

Lemma legacy_process_document_agrees_witness :
  RagSimple.process_document Scenario.env_ok Scenario.PATH
    (init (E := Scenario.env_ok) true)
  = SimpleRag.process_document Scenario.env_ok Scenario.PATH
      (init (E := Scenario.env_ok) true).
Proof.
  apply (legacy_process_document_agrees Scenario.env_ok
           (init (E := Scenario.env_ok) true) Scenario.PATH).
  reflexivity.
Defined.

(** X18.  When every stored embedding has the dimension of the query
    embedding, the two variants of [search] return the same results and
    leave the same state. *)
Theorem legacy_search_agrees :
  forall (E : Env) (m : Machine E) (query : text) (top_k : Z),
    (forall qe rest,
        fst (co_embed E [query] Config.EMBEDDING_MODEL (str "search_query")
                      (world m)) = Returned (qe :: rest) ->
        Forall (fun e => length e = length qe) (embeddings (self m))) ->
    RagSimple.search E query top_k m = SimpleRag.search E query top_k m.
Proof.
  intros E m query top_k Hdim. now apply legacy_search_uniform.
Qed.

Lemma legacy_search_agrees_witness :
  RagSimple.search Scenario.env_ok Scenario.QUESTION 3
    (Scenario.loaded Scenario.env_ok true)
  = SimpleRag.search Scenario.env_ok Scenario.QUESTION 3
      (Scenario.loaded Scenario.env_ok true).
Proof.
  apply (legacy_search_agrees Scenario.env_ok
           (Scenario.loaded Scenario.env_ok true) Scenario.QUESTION 3).
  intros qe rest H. vm_compute in H. injection H as <- <-.
  repeat constructor.
Defined.

(** X19.  When some stored embedding has another dimension than the query
    embedding, [search] of [rag_simple.py] returns nothing at all: the
    exception of [np.dot], which [simple_rag.py] turns into a score of 0
    for that chunk, ends the whole search there. *)
Theorem legacy_search_dimension_mismatch :
  forall (E : Env) (m : Machine E) (query : text) (top_k : Z)
         (qe : vec) (rest : list vec),
    fst (co_embed E [query] Config.EMBEDDING_MODEL (str "search_query")
                  (world m)) = Returned (qe :: rest) ->
    Exists (fun e => length e <> length qe) (embeddings (self m)) ->
    fst (RagSimple.search E query top_k m) = []
    /\ (forall e, length e <> length qe ->
                  SimpleRag._cosine_similarity qe e = 0%R).
Proof.
  intros E m query top_k qe rest Hreply Hbad. split.
  - rewrite legacy_search_eq.
    destruct (negb (truthy (embeddings (self m)))); [reflexivity|].
    cbv zeta. simpl fst. rewrite Hreply.
    cbn [and_then]. unfold RagSimple.ranking, index.
    cbn [nth_error and_then].
    destruct (legacy_similarities_mismatch qe
                (enumerate 0 (embeddings (self m)))) as [e ->];
      [now rewrite enumerate_snd|reflexivity].
  - intros e He. unfold SimpleRag._cosine_similarity, np_dot.
    assert (Hne : (length qe =? length e)%nat = false)
      by (apply Nat.eqb_neq; congruence).
    now rewrite Hne.
Qed.

Lemma legacy_search_dimension_mismatch_witness :
  fst (RagSimple.search Mismatch.env_by_length Scenario.QUESTION 3
         Mismatch.loaded) = [].
Proof.
  refine (proj1 (legacy_search_dimension_mismatch Mismatch.env_by_length
                   Mismatch.loaded Scenario.QUESTION 3
                   (repeat 1%R 28) [] _ _)).
  - reflexivity.
  - left. vm_compute. discriminate.
Defined.

(* ================================================================= *)
(** ** The session as a whole *)

Section SessionFacts.

Variable E : Env.

Lemma uniform_source_ingested (pdf_path : text) (chunks : list text)
      (embs : list vec) :
  Forall (fun md => source md = basename pdf_path)
         (metadata (ingested pdf_path chunks embs)).
Proof.
  simpl. rewrite Forall_map. rewrite Forall_forall. reflexivity.
Qed.

Lemma reachable_uniform_source (m : Machine E) :
  reachable E m ->
  exists name, Forall (fun md => source md = name) (metadata (self m)).
Proof.
  induction 1 as [w|m w _ IH|m path _ IH|m q k _ IH|m q _ IH].
  - exists []. constructor.
  - exact IH.
  - destruct (process_document_cases E path m)
      as [[_ ->]|(chunks & embs & _ & _ & _ & _ & ->)]; [exact IH|].
    exists (basename path). apply uniform_source_ingested.
  - now rewrite search_self.
  - now rewrite answer_question_self.
Qed.

End SessionFacts.

(** X20.  [process_document] calls the provider at most once, with the
    chunks of the file, and only for a file that exists and can be read:
    a missing or unreadable file costs no remote call. *)
Theorem process_document_remote_calls :
  forall (E : Env) (m : Machine E) (pdf_path : text),
    trace (snd (SimpleRag.process_document E pdf_path m))
    = trace m
      ++ (if path_exists E pdf_path (world m)
          then match read_pages E pdf_path (world m) with
               | Returned pages =>
                   [CallEmbed
                      (SimplePDFProcessor.chunk_text Config.CHUNK_SIZE
                         (SimplePDFProcessor.pages_text pages))
                      Config.EMBEDDING_MODEL (str "search_document")]
               | Raised _ => []
               end
          else []).
Proof.
  intros E m pdf_path. rewrite process_document_eq.
  destruct (path_exists E pdf_path (world m)); simpl negb; cbv iota;
    [|now rewrite app_nil_r].
  destruct (read_pages E pdf_path (world m)) as [pages|e]; simpl;
    [|now rewrite app_nil_r].
  pose proof (chunk_sentences_nonempty Config.CHUNK_SIZE
                (re_split_sentences
                   (SimplePDFProcessor.clean_text
                      (SimplePDFProcessor.pages_text pages)))
                (re_split_nonempty _ false false)) as Hne.
  fold (SimplePDFProcessor.chunk_text Config.CHUNK_SIZE
          (SimplePDFProcessor.pages_text pages)) in Hne |- *.
  destruct (SimplePDFProcessor.chunk_text _ _) as [|c cs] eqn:Hc;
    [congruence|].
  assert (Hpos : (0 <? len (c :: cs))%Z = true)
    by (apply Z.ltb_lt; unfold len; simpl; lia).
  rewrite Hpos. simpl negb. cbv iota.
  destruct (fst (co_embed E _ _ _ (world m))); reflexivity.
Qed.

(** X21.  In every state of a session there are as many metadata entries
    as chunks, the entry at position [i] carries [chunk_id = i], and all
    entries name the same source. *)
Theorem store_invariant :
  forall (E : Env) (m : Machine E),
    reachable E m ->
    length (metadata (self m)) = length (documents (self m))
    /\ (forall i md,
           nth_error (metadata (self m)) i = Some md -> chunk_id md = i)
    /\ exists name,
         Forall (fun md => source md = name) (metadata (self m)).
Proof.
  intros E m Hreach.
  destruct (reachable_aligned E m Hreach) as [Hlen Hid].
  repeat split; [exact Hlen|exact Hid|].
  now apply reachable_uniform_source.
Qed.

Lemma store_invariant_witness :
  length (metadata (self (Scenario.loaded Scenario.env_ok true)))
  = length (documents (self (Scenario.loaded Scenario.env_ok true))).
Proof.
  apply (proj1 (store_invariant Scenario.env_ok
                  (Scenario.loaded Scenario.env_ok true)
                  (reach_process Scenario.env_ok _ Scenario.PATH
                     (reach_init Scenario.env_ok true)))).
Defined.

(** X22.  The ranking does not depend on how the sort proceeds: any
    arrangement of the similarities in which scores descend and, among
    equal scores, indices ascend is the list that [search] cuts its
    results from. *)
Theorem ranking_is_unique :
  forall (query_embedding : vec) (embs : list vec) (l : list (nat * R)),
    Permutation l (SimpleRag.similarities query_embedding embs) ->
    StronglySorted ranks_before l ->
    l = sort_desc (SimpleRag.similarities query_embedding embs).
Proof.
  intros query_embedding embs l Hperm Hsorted.
  apply ranked_unique; [exact Hsorted|apply ranking_sorted|].
  rewrite Hperm. symmetry. apply sort_desc_perm.
Qed.

Lemma legacy_answer_without_documents_witness :
  status (fst (RagSimple.answer_question Scenario.env_ok Scenario.QUESTION
                 (init (E := Scenario.env_ok) true)))
  = no_results.
Proof.
  apply (proj1 (legacy_answer_without_documents Scenario.env_ok
                  (init (E := Scenario.env_ok) true) Scenario.QUESTION
                  eq_refl)).
Defined.

Lemma legacy_generation_failure_is_error_witness :
  status (fst (RagSimple.answer_question Scenario.env_no_chat
                 Scenario.QUESTION
                 (Scenario.loaded Scenario.env_no_chat true)))
  = error.
Proof.
  refine (proj1 (legacy_generation_failure_is_error Scenario.env_no_chat
                   (Scenario.loaded Scenario.env_no_chat true)
                   Scenario.QUESTION (str "model not found") _ _)).
  - rewrite legacy_search_uniform; [vm_compute; discriminate|].
    intros qe rest H. vm_compute in H. injection H as <- <-.
    repeat constructor.
  - reflexivity.
Defined.

(* ================================================================= *)
(** * The chunker as a whole *)

Section BoundaryFacts.

#[local] Arguments is_space : simpl never.
#[local] Arguments is_terminal : simpl never.

Lemma inner_boundary_cons (c : char) (p : text) :
  inner_boundary (c :: p)
  = (is_terminal c && head_space p) || inner_boundary p.
Proof.
  destruct p as [|d p]; simpl; [now rewrite andb_false_r|reflexivity].
Qed.

(** No piece holds a place where [re.split] would cut; the first piece is
    empty when the scan starts on the white space of a cut, and starts as
    the text does otherwise. *)
Lemma split_no_boundary (s : text) :
  well_spaced s ->
  forall lb, exists p0 rest,
    re_split_from lb false s = p0 :: rest
    /\ inner_boundary p0 = false
    /\ Forall (fun p => inner_boundary p = false) rest
    /\ (lb = true -> head_space s = true -> p0 = [])
    /\ (head_space s = false -> head_space p0 = false).
Proof.
  induction s as [|c s IH]; intros Hws lb.
  - exists [], []. repeat split; auto.
  - destruct Hws as [Hc Hs]. simpl re_split_from.
    destruct (is_space c) eqn:E.
    + destruct (Hc eq_refl) as [-> Hh].
      destruct (IH Hs false) as (p0 & rest & Heq & Hp0 & Hrest & _ & _).
      destruct lb.
      * rewrite (re_split_after_separator s false false Hh), Heq.
        exists [], (p0 :: rest). repeat split; auto.
      * rewrite Heq. exists (SPACE :: p0), rest.
        split; [reflexivity|].
        split; [rewrite inner_boundary_cons; exact Hp0|].
        split; [exact Hrest|]. split; [discriminate|].
        intros H. simpl in H. congruence.
    + destruct (IH Hs (is_terminal c))
        as (p0 & rest & Heq & Hp0 & Hrest & Hcut & Hhead).
      rewrite Heq. exists (c :: p0), rest.
      split; [reflexivity|]. split; [|split; [exact Hrest|split]].
      * rewrite inner_boundary_cons, Hp0, orb_false_r.
        destruct (is_terminal c) eqn:Et; [|reflexivity]. simpl.
        destruct (head_space s) eqn:Es.
        -- now rewrite (Hcut eq_refl eq_refl).
        -- now apply Hhead.
      * intros _ H. simpl in H. congruence.
      * intros _. simpl. exact E.
Qed.

End BoundaryFacts.

(** C7.  The sentences are the pieces of the cleaned text between the
    places where one of [.], [!], [?] is followed by a space: joined with
    single spaces they give the cleaned text, none of them holds such a
    place, and all but the last end with one of the three characters.  The
    chunks are these sentences, grouped in order and joined with single
    spaces: no sentence is cut or lost.  A chunk is at most [chunk_size]
    long unless it is one sentence that is longer, and joining the chunks
    with single spaces gives the cleaned text back. *)
Theorem chunker_contract :
  forall (chunk_size : Z) (full_text : text),
    let normalized := SimplePDFProcessor.clean_text full_text in
    let sentences := re_split_sentences normalized in
    let chunks := SimplePDFProcessor.chunk_text chunk_size full_text in
    join [SPACE] sentences = normalized
    /\ Forall (fun s => inner_boundary s = false) sentences
    /\ Forall (fun s => ends_with_terminal s = true) (removelast sentences)
    /\ (exists groups : list (list text),
           concat groups = sentences
           /\ Forall (fun g => g <> []) groups
           /\ chunks = map (join [SPACE]) groups
           /\ Forall (within chunk_size) groups)
    /\ join [SPACE] chunks = normalized.
Proof.
  intros chunk_size full_text normalized sentences chunks.
  destruct (clean_text_shape full_text) as [Hws Hhead].
  fold normalized in Hws, Hhead.
  assert (Hjoin : join [SPACE] sentences = normalized)
    by (apply split_join; exact Hws).
  assert (Hinner : Forall (fun s => inner_boundary s = false) sentences).
  { destruct (split_no_boundary normalized Hws false)
      as (p0 & rest & Heq & Hp0 & Hrest & _).
    unfold sentences, re_split_sentences. rewrite Heq. now constructor. }
  assert (Hends : Forall (fun s => ends_with_terminal s = true)
                         (removelast sentences)).
  { destruct (split_terminated normalized Hws false)
      as (p0 & rest & Heq & Hrest & Hp0).
    unfold sentences, re_split_sentences. rewrite Heq.
    destruct rest as [|q rest]; [constructor|].
    change (removelast (p0 :: q :: rest))
      with (p0 :: removelast (q :: rest)).
    constructor; [|exact Hrest].
    destruct Hp0 as [[_ H]|H]; [discriminate|discriminate|exact H]. }
  assert (Hgroups : exists groups : list (list text),
             concat groups = sentences
             /\ Forall (fun g => g <> [] /\ within chunk_size g) groups
             /\ chunks = map (join [SPACE]) groups).
  { destruct Hhead as [Hnil|Hhead].
    - exists [[[]]]. unfold chunks, SimplePDFProcessor.chunk_text, sentences.
      fold normalized. rewrite Hnil. repeat split.
      + constructor; [|constructor]. split; [discriminate|].
        apply within_single.
      + apply chunk_sentences_empty_text.
    - apply chunk_sentences_groups. now apply split_tight. }
  destruct Hgroups as (groups & Hcat & Hgood & Hchunks).
  assert (Hne : Forall (fun g : list text => g <> []) groups)
    by (eapply Forall_impl; [|exact Hgood]; now intros g [H _]).
  split; [exact Hjoin|]. split; [exact Hinner|]. split; [exact Hends|].
  split.
  - exists groups. repeat split; auto.
    eapply Forall_impl; [|exact Hgood]. now intros g [_ H].
  - rewrite Hchunks, join_groups, Hcat by exact Hne. exact Hjoin.
Qed.

(** On a text of four sentences and a size of 10: the first two sentences
    share a chunk, the third, which is longer than the size, is a chunk of
    its own, and so is the last. *)
Example chunker_contract_run :
  re_split_sentences
    (SimplePDFProcessor.clean_text (str "Aa.  Bb. Cccccccccccc! Dd"))
  = [str "Aa."; str "Bb."; str "Cccccccccccc!"; str "Dd"]
  /\ SimplePDFProcessor.chunk_text 10 (str "Aa.  Bb. Cccccccccccc! Dd")
     = [str "Aa. Bb."; str "Cccccccccccc!"; str "Dd"].
Proof. split; vm_compute; reflexivity. Qed.

(* ================================================================= *)
(** * The ranking as a whole *)

Section RankPairs.

(** The results are the entries of the cut ranking, in order. *)
Lemma hit_pairs (s : Store) (sl : list (nat * R)) :
  aligned s ->
  forall start hs,
    Forall2 (hit_matches s) (enumerate start sl) hs ->
    map rank_pair hs = sl.
Proof.
  intros [_ Hid]. induction sl as [|[d sc] sl IH]; intros start hs H.
  - inversion H. reflexivity.
  - rewrite enumerate_cons in H.
    inversion H as [|t h top hs' Ht Hrest]; subst. simpl.
    destruct Ht as (_ & Hsc & _ & Hmd). simpl in Hsc, Hmd.
    unfold rank_pair at 1, hit_chunk. rewrite (Hid _ _ Hmd), Hsc.
    f_equal. now apply (IH (S start)).
Qed.

Lemma reachable_lengths (E : Env) (m : Machine E) :
  reachable E m -> length (metadata (self m)) = length (documents (self m)).
Proof. intros H. apply (reachable_aligned E m H). Qed.

(** In a state of a session where every stored embedding has its chunk,
    a search that gets its query embedding returns the cut ranking. *)
Lemma search_pairs (E : Env) (m : Machine E) (q : text) (k : Z)
      (qe : vec) (rest : list vec) :
  reachable E m ->
  fst (co_embed E [q] Config.EMBEDDING_MODEL (str "search_query") (world m))
  = Returned (qe :: rest) ->
  length (embeddings (self m)) <= length (documents (self m)) ->
  map rank_pair (fst (SimpleRag.search E q k m))
  = slice_to k (sort_desc (SimpleRag.similarities qe (embeddings (self m)))).
Proof.
  intros Hreach Hreply Hdocs.
  apply (hit_pairs (self m) _ (reachable_aligned E m Hreach) 0).
  apply (search_answers E q k m qe rest Hreply Hdocs).
  rewrite (reachable_lengths E m Hreach). exact Hdocs.
Qed.

End RankPairs.

(** C1.  In every state of a session the results of [search] are ranked:
    scores descend, and among equal scores the chunk index ascends.  The
    [id] of a result is its position in that order, counted from 1, and
    its score is the cosine similarity of the query embedding with the
    stored embedding of its chunk.  When the provider returns the query
    embedding and every stored embedding has its chunk, the results are
    the whole ranking of the stored embeddings cut at [top_k]: none is
    left out. *)
Theorem search_results_ranked :
  forall (E : Env) (m : Machine E) (query : text) (top_k : Z),
    reachable E m ->
    let found := fst (SimpleRag.search E query top_k m) in
    let reply :=
      fst (co_embed E [query] Config.EMBEDDING_MODEL (str "search_query")
                    (world m)) in
    StronglySorted hit_before found
    /\ map hit_id found = seq 1 (length found)
    /\ (forall h, In h found ->
          exists qe rest emb,
            reply = Returned (qe :: rest)
            /\ nth_error (embeddings (self m)) (chunk_id (hit_metadata h))
               = Some emb
            /\ hit_score h = SimpleRag._cosine_similarity qe emb
            /\ nth_error (documents (self m)) (chunk_id (hit_metadata h))
               = Some (hit_text h))
    /\ (forall qe rest,
           reply = Returned (qe :: rest) ->
           length (embeddings (self m)) <= length (documents (self m)) ->
           map rank_pair found
           = slice_to top_k
               (sort_desc
                  (SimpleRag.similarities qe (embeddings (self m))))).
Proof.
  intros E m query top_k Hreach found reply.
  pose proof (reachable_aligned E m Hreach) as Hal.
  assert (Hcut : forall qe rest,
             reply = Returned (qe :: rest) ->
             length (embeddings (self m)) <= length (documents (self m)) ->
             map rank_pair found
             = slice_to top_k
                 (sort_desc
                    (SimpleRag.similarities qe (embeddings (self m)))))
    by (intros qe rest Hreply Hdocs; now apply (search_pairs E m _ _ qe rest)).
  destruct (search_cases E query top_k m) as [Hnil|(qe & rest & Hq & Hall)];
    fold found in Hnil || fold found in Hall.
  - split; [rewrite Hnil; constructor|].
    split; [rewrite Hnil; reflexivity|].
    split; [rewrite Hnil; intros h []|exact Hcut].
  - split; [|split; [|split; [|exact Hcut]]].
    + eapply Forall2_sorted; [exact Hal| |exact Hall].
      apply slice_to_sorted, ranking_sorted.
    + apply (Forall2_ids _ _ _ _ Hall).
    + intros h Hh.
      destruct (Forall2_In_r _ _ _ Hall h Hh) as ([i [d sc]] & Hin & Hm).
      destruct Hm as (_ & Hsc & Hdoc & Hmd). simpl in Hsc, Hdoc, Hmd.
      destruct Hal as [_ Hid]. rewrite (Hid _ _ Hmd).
      apply enumerate_In in Hin. destruct Hin as [_ Hin].
      apply nth_error_In, slice_to_incl in Hin.
      apply (Permutation_in _ (sort_desc_perm _)) in Hin.
      apply similarities_In in Hin. destruct Hin as (emb & Hemb & Heq).
      exists qe, rest, emb. repeat split; solve [exact Hq|congruence].
Qed.

(* ================================================================= *)
(** ** The corpus of three chunks *)

Section CorpusFacts.

Local Open Scope R_scope.

Lemma unit_norm (a : vec) : dot a a = 1 -> norm a <> 0.
Proof. intros H. unfold norm. rewrite H, sqrt_1. lra. Qed.

Lemma cosine_orthogonal (a b : vec) :
  length a = length b -> dot a b = 0 ->
  SimpleRag._cosine_similarity a b = 0.
Proof.
  intros Hlen Hdot. unfold SimpleRag._cosine_similarity.
  rewrite np_dot_same_length by exact Hlen. rewrite Hdot.
  destruct (is_zero _ || is_zero _); [reflexivity|].
  unfold Rdiv. apply Rmult_0_l.
Qed.

Lemma corpus_similarities :
  SimpleRag.similarities Corpus.QUERY_VECTOR Corpus.UNITS
  = [(0%nat, 0); (1%nat, 1); (2%nat, 0)].
Proof.
  change (SimpleRag.similarities Corpus.QUERY_VECTOR Corpus.UNITS)
    with [(0%nat, SimpleRag._cosine_similarity [0; 1; 0] [1; 0; 0]);
          (1%nat, SimpleRag._cosine_similarity [0; 1; 0] [0; 1; 0]);
          (2%nat, SimpleRag._cosine_similarity [0; 1; 0] [0; 0; 1])].
  rewrite (cosine_orthogonal [0; 1; 0] [1; 0; 0])
    by (reflexivity || (simpl; ring)).
  rewrite (cosine_orthogonal [0; 1; 0] [0; 0; 1])
    by (reflexivity || (simpl; ring)).
  rewrite cosine_self by (apply unit_norm; simpl; ring).
  reflexivity.
Qed.

Lemma corpus_ranking_sorted : StronglySorted ranks_before Corpus.RANKING.
Proof.
  unfold Corpus.RANKING.
  split_sorted; unfold ranks_before; simpl;
    solve [left; lra | right; split; [reflexivity|lia]].
Qed.

Lemma corpus_ranking :
  sort_desc (SimpleRag.similarities Corpus.QUERY_VECTOR Corpus.UNITS)
  = Corpus.RANKING.
Proof.
  symmetry. apply ranked_unique.
  - apply corpus_ranking_sorted.
  - apply ranking_sorted.
  - rewrite sort_desc_perm, corpus_similarities. apply perm_swap.
Qed.

Local Close Scope R_scope.

Lemma corpus_store :
  self Corpus.loaded
  = ingested Scenario.PATH
      [Corpus.CHUNK_A; Corpus.CHUNK_B; Corpus.CHUNK_C] Corpus.UNITS.
Proof. vm_compute. reflexivity. Qed.

Lemma corpus_world : world Corpus.loaded = true.
Proof. vm_compute. reflexivity. Qed.

Lemma corpus_reachable : reachable Corpus.env_units Corpus.loaded.
Proof. apply reach_process, reach_init. Qed.

Lemma corpus_reply :
  fst (co_embed Corpus.env_units [Scenario.QUESTION] Config.EMBEDDING_MODEL
                (str "search_query") (world Corpus.loaded))
  = Returned [Corpus.QUERY_VECTOR].
Proof. rewrite corpus_world. reflexivity. Qed.

Lemma corpus_embeddings : embeddings (self Corpus.loaded) = Corpus.UNITS.
Proof. now rewrite corpus_store. Qed.

Lemma corpus_lengths :
  length (embeddings (self Corpus.loaded))
  <= length (documents (self Corpus.loaded)).
Proof. rewrite corpus_store. simpl. lia. Qed.

End CorpusFacts.

Lemma search_results_ranked_witness :
  reachable Corpus.env_units Corpus.loaded
  /\ map rank_pair
       (fst (SimpleRag.search Corpus.env_units Scenario.QUESTION 3
               Corpus.loaded))
     = [(1, 1%R); (0, 0%R); (2, 0%R)]
  /\ map hit_id
       (fst (SimpleRag.search Corpus.env_units Scenario.QUESTION 3
               Corpus.loaded))
     = [1; 2; 3]
  /\ StronglySorted hit_before
       (fst (SimpleRag.search Corpus.env_units Scenario.QUESTION 3
               Corpus.loaded)).
Proof.
  pose proof (search_results_ranked Corpus.env_units Corpus.loaded
                Scenario.QUESTION 3 corpus_reachable)
    as (Hsorted & Hids & _ & Hcut).
  specialize (Hcut Corpus.QUERY_VECTOR [] corpus_reply corpus_lengths).
  rewrite corpus_embeddings, corpus_ranking in Hcut.
  split; [exact corpus_reachable|]. split; [exact Hcut|].
  split; [|exact Hsorted].
  rewrite Hids. apply (f_equal (@length _)) in Hcut.
  rewrite length_map in Hcut. rewrite Hcut. reflexivity.
Defined.

(** X10.  A negative [top_k] counts from the end of the ranking: in a
    state of a session where the provider returns the query embedding and
    every stored embedding has its chunk, [search] returns the ranking
    without its last [-top_k] entries, the lowest-ranked chunks, that is
    [max(0, n + top_k)] results. *)
Theorem search_negative_top_k :
  forall (E : Env) (m : Machine E) (query : text) (top_k : Z)
         (qe : vec) (rest : list vec),
    reachable E m ->
    (top_k < 0)%Z ->
    fst (co_embed E [query] Config.EMBEDDING_MODEL (str "search_query")
                  (world m)) = Returned (qe :: rest) ->
    length (embeddings (self m)) <= length (documents (self m)) ->
    let ranking :=
      sort_desc (SimpleRag.similarities qe (embeddings (self m))) in
    let kept := length ranking - Z.to_nat (- top_k) in
    map rank_pair (fst (SimpleRag.search E query top_k m))
    = firstn kept ranking
    /\ ranking
       = map rank_pair (fst (SimpleRag.search E query top_k m))
         ++ skipn kept ranking
    /\ len (fst (SimpleRag.search E query top_k m))
       = Z.max 0 (len (embeddings (self m)) + top_k).
Proof.
  intros E m query top_k qe rest Hreach Hk Hreply Hdocs ranking kept.
  pose proof (search_pairs E m query top_k qe rest Hreach Hreply Hdocs)
    as Hcut.
  fold ranking in Hcut.
  assert (Hslice : slice_to top_k ranking = firstn kept ranking).
  { unfold slice_to. apply Z.ltb_lt in Hk. rewrite Hk.
    f_equal. unfold kept, len. lia. }
  rewrite Hslice in Hcut. split; [exact Hcut|]. split.
  - rewrite Hcut. symmetry. apply firstn_skipn.
  - apply (f_equal (@length _)) in Hcut.
    rewrite length_map, length_firstn in Hcut.
    unfold len. rewrite Hcut. unfold kept, ranking.
    rewrite sort_desc_length, similarities_length. lia.
Qed.

Lemma search_negative_top_k_witness :
  map rank_pair
    (fst (SimpleRag.search Corpus.env_units Scenario.QUESTION (-1)
            Corpus.loaded))
  = [(1, 1%R); (0, 0%R)]
  /\ len (fst (SimpleRag.search Corpus.env_units Scenario.QUESTION (-1)
                 Corpus.loaded)) = 2%Z.
Proof.
  pose proof (search_negative_top_k Corpus.env_units Corpus.loaded
                Scenario.QUESTION (-1) Corpus.QUERY_VECTOR []
                corpus_reachable eq_refl corpus_reply corpus_lengths)
    as (Hcut & _ & Hlen).
  cbv zeta in Hcut. rewrite corpus_embeddings, corpus_ranking in Hcut.
  rewrite corpus_embeddings in Hlen.
  split; [exact Hcut|exact Hlen].
Defined.

Lemma search_results_distinct_witness :
  length (fst (SimpleRag.search Corpus.env_units Scenario.QUESTION 3
                 Corpus.loaded)) = 3
  /\ NoDup (map hit_chunk
              (fst (SimpleRag.search Corpus.env_units Scenario.QUESTION 3
                      Corpus.loaded)))
  /\ Forall (fun h => hit_chunk h < 3)
            (fst (SimpleRag.search Corpus.env_units Scenario.QUESTION 3
                    Corpus.loaded)).
Proof.
  pose proof (search_results_distinct Corpus.env_units Corpus.loaded
                Scenario.QUESTION 3 corpus_reachable) as [Hnodup Hall].
  rewrite corpus_embeddings in Hall.
  pose proof (search_pairs Corpus.env_units Corpus.loaded Scenario.QUESTION
                3 Corpus.QUERY_VECTOR [] corpus_reachable corpus_reply
                corpus_lengths) as Hcut.
  rewrite corpus_embeddings, corpus_ranking in Hcut.
  apply (f_equal (@length _)) in Hcut. rewrite length_map in Hcut.
  split; [exact Hcut|]. split; [exact Hnodup|exact Hall].
Defined.

Lemma single_result (found : list Hit) (i : nat) (sc : R) :
  map rank_pair found = [(i, sc)] ->
  exists h, found = [h] /\ hit_chunk h = i /\ hit_score h = sc.
Proof.
  destruct found as [|h [|h' hs]]; try discriminate.
  intros H. injection H as Hchunk Hscore. now exists h.
Qed.

Lemma search_returns_the_best_witness :
  exists h,
    fst (SimpleRag.search Corpus.env_units Scenario.QUESTION 1
           Corpus.loaded) = [h]
    /\ hit_chunk h = 1
    /\ nth_error (embeddings (self Corpus.loaded)) 2 = Some [0; 0; 1]%R
    /\ (SimpleRag._cosine_similarity Corpus.QUERY_VECTOR [0; 0; 1]%R
        <= hit_score h)%R.
Proof.
  pose proof (search_pairs Corpus.env_units Corpus.loaded Scenario.QUESTION
                1 Corpus.QUERY_VECTOR [] corpus_reachable corpus_reply
                corpus_lengths) as Hcut.
  rewrite corpus_embeddings, corpus_ranking in Hcut.
  apply single_result in Hcut. destruct Hcut as (h & Hfound & Hchunk & _).
  assert (Hthird : nth_error (embeddings (self Corpus.loaded)) 2
                   = Some [0; 0; 1]%R)
    by (rewrite corpus_embeddings; reflexivity).
  exists h. split; [exact Hfound|]. split; [exact Hchunk|].
  split; [exact Hthird|].
  destruct (search_returns_the_best Corpus.env_units Corpus.loaded
              Scenario.QUESTION 1 Corpus.QUERY_VECTOR [] corpus_reachable
              corpus_reply h 2 [0; 0; 1]%R)
    as [(h2 & Hin & Hh2)|Hle].
  - rewrite Hfound. now left.
  - exact Hthird.
  - rewrite Hfound in Hin. destruct Hin as [<-|[]]. congruence.
  - exact Hle.
Defined.

Lemma ranking_is_unique_witness :
  [(1, 1%R); (0, 0%R); (2, 0%R)]
  = sort_desc (SimpleRag.similarities [0; 1; 0]%R
                 [[1; 0; 0]; [0; 1; 0]; [0; 0; 1]]%R).
Proof.
  apply (ranking_is_unique [0; 1; 0]%R
           [[1; 0; 0]; [0; 1; 0]; [0; 0; 1]]%R).
  - change (Permutation Corpus.RANKING
              (SimpleRag.similarities Corpus.QUERY_VECTOR Corpus.UNITS)).
    rewrite corpus_similarities. apply perm_swap.
  - apply corpus_ranking_sorted.
Defined.

(* ================================================================= *)
(** * The two variants of [answer_question] *)

Section LegacySessionFacts.

Variable E : Env.

Lemma legacy_search_self (q : text) (k : Z) (m : Machine E) :
  self (snd (RagSimple.search E q k m)) = self m.
Proof.
  rewrite legacy_search_eq.
  destruct (negb (truthy (embeddings (self m)))); reflexivity.
Qed.

Lemma legacy_answer_question_eq (q : text) (m : Machine E) :
  RagSimple.answer_question E q m
  = let found := RagSimple.search E q Config.TOP_K m in
    if negb (truthy (fst found))
    then ({| question := q; answer := RagSimple.NO_RESULTS_ANSWER;
             sources := []; status := no_results; model_used := None |},
          snd found)
    else
      let prompt :=
        RagSimple.prompt_of (SimpleRag.context_of E (fst found)) q in
      let reply :=
        co_generate E prompt Config.GENERATION_MODEL (world (snd found)) in
      (match fst reply with
       | Returned generated =>
           {| question := q; answer := strip generated;
              sources := fst found; status := success;
              model_used := None |}
       | Raised e =>
           {| question := q;
              answer := str "Error generating answer: " ++ e;
              sources := fst found; status := error;
              model_used := None |}
       end,
       Build_Machine (self (snd found)) (snd reply)
         (trace (snd found)
          ++ [CallGenerate prompt Config.GENERATION_MODEL])).
Proof.
  unfold RagSimple.answer_question, bind at 1.
  destruct (RagSimple.search E q Config.TOP_K m) as [found m1].
  cbv zeta. cbn [fst snd].
  destruct (negb (truthy found)); [reflexivity|].
  unfold bind, generate, ret.
  destruct (co_generate E _ Config.GENERATION_MODEL (world m1))
    as [[t|e] w]; reflexivity.
Qed.

Lemma legacy_answer_question_self (q : text) (m : Machine E) :
  self (snd (RagSimple.answer_question E q m)) = self m.
Proof.
  rewrite legacy_answer_question_eq. cbv zeta.
  destruct (negb (truthy (fst (RagSimple.search E q Config.TOP_K m))));
    simpl; apply legacy_search_self.
Qed.

Lemma legacy_process_document_eq (pdf_path : text) (m : Machine E) :
  RagSimple.process_document E pdf_path m
  = let chunks :=
      SimplePDFProcessor.load_pdf Config.CHUNK_SIZE
        (read_pages E pdf_path (world m)) in
    if negb (0 <? len chunks)%Z then (false, m)
    else
      let reply :=
        co_embed E chunks Config.EMBEDDING_MODEL (str "search_document")
                 (world m) in
      let called :=
        trace m ++ [CallEmbed chunks Config.EMBEDDING_MODEL
                              (str "search_document")] in
      match fst reply with
      | Returned response_embeddings =>
          (true,
           Build_Machine (ingested pdf_path chunks response_embeddings)
                         (snd reply) called)
      | Raised _ => (false, Build_Machine (self m) (snd reply) called)
      end.
Proof.
  unfold RagSimple.process_document, bind at 1, ask.
  unfold SimplePDFProcessor.process_pdf. cbv zeta.
  destruct (negb (0 <? len _)%Z); [reflexivity|].
  unfold bind at 1, embed.
  destruct (co_embed E _ Config.EMBEDDING_MODEL (str "search_document")
                     (world m)) as [[embs|e] w]; reflexivity.
Qed.

(** A failed ingestion of [rag_simple.py] keeps the store. *)
Lemma legacy_process_document_failed (pdf_path : text) (m : Machine E) :
  fst (RagSimple.process_document E pdf_path m) = false ->
  self (snd (RagSimple.process_document E pdf_path m)) = self m.
Proof.
  rewrite legacy_process_document_eq. cbv zeta.
  destruct (negb (0 <? len _)%Z); [reflexivity|].
  destruct (fst (co_embed E _ _ _ (world m))); [discriminate|reflexivity].
Qed.

Lemma legacy_never_ingested_store (m : Machine E) :
  legacy_never_ingested E m ->
  self m = {| documents := []; embeddings := []; metadata := [] |}.
Proof.
  induction 1 as [w|m w _ IH|m path _ IH Hfail|m q k _ IH|m q _ IH].
  - reflexivity.
  - exact IH.
  - now rewrite legacy_process_document_failed.
  - now rewrite legacy_search_self.
  - now rewrite legacy_answer_question_self.
Qed.

(** With no embedding stored [rag_simple.py] answers [no_results] and
    calls nobody. *)
Lemma legacy_answer_empty_store (q : text) (m : Machine E) :
  embeddings (self m) = [] ->
  RagSimple.answer_question E q m
  = ({| question := q; answer := RagSimple.NO_RESULTS_ANSWER;
        sources := []; status := no_results; model_used := None |}, m).
Proof.
  intros H. rewrite legacy_answer_question_eq, legacy_search_eq, H.
  reflexivity.
Qed.

(** With a non-empty ranking and a generation call that raises,
    [rag_simple.py] answers [error] and quotes the exception. *)
Lemma legacy_answer_generation_raised (q e : text) (m : Machine E) :
  fst (RagSimple.search E q Config.TOP_K m) <> [] ->
  fst (co_generate E
         (RagSimple.prompt_of
            (SimpleRag.context_of E
               (fst (RagSimple.search E q Config.TOP_K m))) q)
         Config.GENERATION_MODEL
         (world (snd (RagSimple.search E q Config.TOP_K m)))) = Raised e ->
  fst (RagSimple.answer_question E q m)
  = {| question := q; answer := str "Error generating answer: " ++ e;
       sources := fst (RagSimple.search E q Config.TOP_K m);
       status := error; model_used := None |}.
Proof.
  intros Hfound Hgen. rewrite legacy_answer_question_eq. cbv zeta.
  apply truthy_nonempty in Hfound. rewrite Hfound. simpl negb. cbv iota.
  cbn [fst]. now rewrite Hgen.
Qed.

Lemma search_world (q : text) (k : Z) (m : Machine E) :
  world (snd (SimpleRag.search E q k m))
  = if truthy (embeddings (self m))
    then snd (co_embed E [q] Config.EMBEDDING_MODEL (str "search_query")
                       (world m))
    else world m.
Proof.
  rewrite search_eq. destruct (truthy (embeddings (self m))); reflexivity.
Qed.

End LegacySessionFacts.

(** C5, as the code has it.  With a non-empty ranking and a generation call
    that raises, neither variant lets the exception through.
    [answer_question] of [simple_rag.py] returns status [fallback]: the
    sources are the whole ranking, and the answer is the fixed header
    followed, for each of the first three results and nothing else, by its
    position, its score as a percentage with one decimal, and the first
    200 characters of its text.  [answer_question] of [rag_simple.py]
    returns status [error]: the sources are the whole ranking, and the
    answer is the text of the exception after a fixed prefix. *)
Theorem generation_failure_by_variant :
  forall (E : Env) (m : Machine E) (question_ : text) (e : text),
    (documents (self m) <> [] ->
     let found := SimpleRag.search E question_ Config.TOP_K m in
     fst found <> [] ->
     fst (co_chat E
            (SimpleRag.chat_message (SimpleRag.context_of E (fst found))
                                    question_)
            Config.GENERATION_MODEL (world (snd found))) = Raised e ->
     let result := fst (SimpleRag.answer_question E question_ m) in
     status result = fallback
     /\ question result = question_
     /\ sources result = fst found
     /\ answer result
        = FALLBACK_HEADER
          ++ concat (map (fallback_block E)
                         (enumerate 1 (firstn 3 (fst found))))
     /\ length (firstn 3 (fst found)) = Nat.min 3 (length (fst found)))
    /\ (let found := RagSimple.search E question_ Config.TOP_K m in
        fst found <> [] ->
        fst (co_generate E
               (RagSimple.prompt_of (SimpleRag.context_of E (fst found))
                                    question_)
               Config.GENERATION_MODEL (world (snd found))) = Raised e ->
        let result := fst (RagSimple.answer_question E question_ m) in
        status result = error
        /\ question result = question_
        /\ sources result = fst found
        /\ answer result = str "Error generating answer: " ++ e).
Proof.
  intros E m question_ e. split.
  - intros Hdocs found Hfound Hchat.
    exact (simple_rag_falls_back E m question_ e Hdocs Hfound Hchat).
  - intros found Hfound Hgen result. unfold result.
    rewrite (legacy_answer_generation_raised E question_ e m Hfound Hgen).
    repeat split.
Qed.

Section CorpusAnswers.

Lemma corpus_found :
  map rank_pair
    (fst (SimpleRag.search Corpus.env_units Scenario.QUESTION Config.TOP_K
            Corpus.loaded))
  = Corpus.RANKING.
Proof.
  rewrite (search_pairs Corpus.env_units Corpus.loaded Scenario.QUESTION
             Config.TOP_K Corpus.QUERY_VECTOR [] corpus_reachable
             corpus_reply corpus_lengths).
  now rewrite corpus_embeddings, corpus_ranking.
Qed.

Lemma corpus_found_three :
  length (fst (SimpleRag.search Corpus.env_units Scenario.QUESTION
                 Config.TOP_K Corpus.loaded)) = 3.
Proof.
  pose proof corpus_found as H. apply (f_equal (@length _)) in H.
  now rewrite length_map in H.
Qed.

Lemma corpus_legacy_search :
  RagSimple.search Corpus.env_units Scenario.QUESTION Config.TOP_K
    Corpus.loaded
  = SimpleRag.search Corpus.env_units Scenario.QUESTION Config.TOP_K
      Corpus.loaded.
Proof.
  apply legacy_search_uniform. intros qe rest H.
  rewrite corpus_reply in H. injection H as <- <-.
  rewrite corpus_embeddings. repeat constructor.
Qed.

Lemma corpus_found_world :
  world (snd (SimpleRag.search Corpus.env_units Scenario.QUESTION
                Config.TOP_K Corpus.loaded)) = true.
Proof.
  rewrite search_world, corpus_embeddings, corpus_world. reflexivity.
Qed.

Lemma nonempty_of_length {A} (l : list A) (n : nat) :
  length l = S n -> l <> [].
Proof. destruct l; discriminate. Qed.

End CorpusAnswers.

Lemma generation_failure_by_variant_witness :
  status (fst (SimpleRag.answer_question Corpus.env_units Scenario.QUESTION
                 Corpus.loaded)) = fallback
  /\ length (sources
               (fst (SimpleRag.answer_question Corpus.env_units
                       Scenario.QUESTION Corpus.loaded))) = 3
  /\ status (fst (RagSimple.answer_question Corpus.env_units
                    Scenario.QUESTION Corpus.loaded)) = error
  /\ answer (fst (RagSimple.answer_question Corpus.env_units
                    Scenario.QUESTION Corpus.loaded))
     = str "Error generating answer: model not found".
Proof.
  destruct (generation_failure_by_variant Corpus.env_units Corpus.loaded
              Scenario.QUESTION (str "model not found"))
    as [Hnew Hold].
  destruct Hnew as (Hst & _ & Hsrc & _).
  { rewrite corpus_store. discriminate. }
  { apply (nonempty_of_length _ 2), corpus_found_three. }
  { rewrite corpus_found_world. reflexivity. }
  destruct Hold as (Hst' & _ & _ & Hans).
  { rewrite corpus_legacy_search.
    apply (nonempty_of_length _ 2), corpus_found_three. }
  { rewrite corpus_legacy_search, corpus_found_world. reflexivity. }
  split; [exact Hst|]. split; [rewrite Hsrc; exact corpus_found_three|].
  split; [exact Hst'|exact Hans].
Defined.

(** C5 as stated fails for [rag_simple.py]: with three ranked sources and
    a generation call that raises, its [answer_question] returns status
    [error], not [fallback], and the answer is the text of the
    exception. *)
Lemma generation_failure_counterexample :
  length (fst (RagSimple.search Corpus.env_units Scenario.QUESTION
                 Config.TOP_K Corpus.loaded)) = 3
  /\ status (fst (RagSimple.answer_question Corpus.env_units
                    Scenario.QUESTION Corpus.loaded)) = error
  /\ status (fst (RagSimple.answer_question Corpus.env_units
                    Scenario.QUESTION Corpus.loaded)) <> fallback
  /\ answer (fst (RagSimple.answer_question Corpus.env_units
                    Scenario.QUESTION Corpus.loaded))
     = str "Error generating answer: model not found".
Proof.
  assert (Hrun : fst (RagSimple.answer_question Corpus.env_units
                        Scenario.QUESTION Corpus.loaded)
                 = {| question := Scenario.QUESTION;
                      answer := str "Error generating answer: "
                                ++ str "model not found";
                      sources :=
                        fst (RagSimple.search Corpus.env_units
                               Scenario.QUESTION Config.TOP_K Corpus.loaded);
                      status := error; model_used := None |}).
  { apply legacy_answer_generation_raised.
    - rewrite corpus_legacy_search.
      apply (nonempty_of_length _ 2), corpus_found_three.
    - rewrite corpus_legacy_search, corpus_found_world. reflexivity. }
  rewrite Hrun, corpus_legacy_search. simpl status. simpl answer.
  split; [exact corpus_found_three|].
  split; [reflexivity|]. split; [discriminate|reflexivity].
Qed.

(** C6, as the code has it.  Before any successful ingestion neither
    variant makes a remote call or changes the state, and both return no
    source and a fixed answer.  [answer_question] of [simple_rag.py]
    returns status [no_documents]; [answer_question] of [rag_simple.py],
    which has no such status, returns [no_results]. *)
Theorem answer_before_ingestion :
  forall (E : Env) (m : Machine E) (question_ : text),
    (never_ingested E m ->
     let run := SimpleRag.answer_question E question_ m in
     status (fst run) = no_documents
     /\ sources (fst run) = []
     /\ answer (fst run) = SimpleRag.NO_DOCUMENTS_ANSWER
     /\ question (fst run) = question_
     /\ trace (snd run) = trace m
     /\ snd run = m)
    /\ (legacy_never_ingested E m ->
        let run := RagSimple.answer_question E question_ m in
        status (fst run) = no_results
        /\ sources (fst run) = []
        /\ answer (fst run) = RagSimple.NO_RESULTS_ANSWER
        /\ question (fst run) = question_
        /\ trace (snd run) = trace m
        /\ snd run = m).
Proof.
  intros E m question_. split.
  - intros Hfresh. exact (simple_rag_without_documents E m question_ Hfresh).
  - intros Hfresh run. unfold run.
    rewrite legacy_answer_empty_store
      by (now rewrite (legacy_never_ingested_store E m Hfresh)).
    repeat split.
Qed.

Lemma answer_before_ingestion_witness :
  status (fst (SimpleRag.answer_question Scenario.env_ok Scenario.QUESTION
                 (init (E := Scenario.env_ok) true))) = no_documents
  /\ status (fst (RagSimple.answer_question Scenario.env_ok
                    Scenario.QUESTION (init (E := Scenario.env_ok) true)))
     = no_results.
Proof.
  destruct (answer_before_ingestion Scenario.env_ok
              (init (E := Scenario.env_ok) true) Scenario.QUESTION)
    as [Hnew Hold].
  split.
  - exact (proj1 (Hnew (fresh_init Scenario.env_ok true))).
  - exact (proj1 (Hold (legacy_fresh_init Scenario.env_ok true))).
Defined.

(** C6 as stated fails for [rag_simple.py]: asked before any ingestion,
    its [answer_question] returns status [no_results], not
    [no_documents]. *)
Lemma answer_before_ingestion_counterexample :
  legacy_never_ingested Scenario.env_ok (init (E := Scenario.env_ok) true)
  /\ status (fst (RagSimple.answer_question Scenario.env_ok
                    Scenario.QUESTION (init (E := Scenario.env_ok) true)))
     = no_results
  /\ status (fst (RagSimple.answer_question Scenario.env_ok
                    Scenario.QUESTION (init (E := Scenario.env_ok) true)))
     <> no_documents.
Proof.
  split; [apply legacy_fresh_init|].
  split; [reflexivity|discriminate].
Qed.
